(** * lice: license text normalisation, comment wrapping, registry and
      crash-safe file annotation

    A shallow embedding of the Go package [licenses] (files [text.go],
    [registry.go], [license.go]) and of [chooseIndent] from the command
    [lice], with the properties of the specification stated over it. *)

From Stdlib Require Import ZArith List Ascii String Lia Bool Sorted.
From stdpp Require Import gmap strings list fin_maps.

Local Open Scope Z_scope.
Set Warnings "-register-all".
Set Default Proof Using "Type".

(** ** Go strings

    A Go [string] is an immutable sequence of bytes; [len] counts bytes
    and [for _, c := range s] decodes UTF-8.  A string is a list of
    8-bit characters here. *)

Abbreviation gostring := (list ascii).

Definition str (s : string) : gostring := list_ascii_of_string s.

Definition byteval (c : ascii) : Z := Z.of_N (N_of_ascii c).
Definition asc (z : Z) : ascii := ascii_of_N (Z.to_N z).

Definition LF : ascii := "010"%char.
Definition TAB : ascii := "009"%char.
Definition CR : ascii := "013"%char.
Definition SP : ascii := " "%char.
Definition VT : ascii := "011"%char.
Definition FF : ascii := "012"%char.

(** Comparison with the empty string, and [len(x) == 0] on slices *)
Definition is_empty {A} (s : list A) : bool :=
  match s with [] => true | _ => false end.

Definition mem (c : ascii) (cutset : gostring) : bool :=
  existsb (Ascii.eqb c) cutset.

(** [strings.Split(s, "\n")]: the pieces between line feeds; the empty
    string splits into one empty piece. *)
Fixpoint Split (s : gostring) : list gostring :=
  match s with
  | [] => [[]]
  | c :: r =>
      if Ascii.eqb c LF then [] :: Split r
      else match Split r with
           | h :: t => (c :: h) :: t
           | [] => [[c]]
           end
  end.

(** [strings.Join(lines, "\n")] *)
Fixpoint Join (ls : list gostring) : gostring :=
  match ls with
  | [] => []
  | [l] => l
  | l :: rest => l ++ LF :: Join rest
  end.

(** [strings.TrimRight(s, cutset)] for a cutset of single-byte
    characters: the trailing bytes that belong to the cutset are
    dropped. *)
Fixpoint TrimRight (s cutset : gostring) : gostring :=
  match s with
  | [] => []
  | c :: r =>
      match TrimRight r cutset with
      | [] => if mem c cutset then [] else [c]
      | r' => c :: r'
      end
  end.

(** [strings.Repeat(" ", n)] *)
Definition Repeat (c : ascii) (n : Z) : gostring := replicate (Z.to_nat n) c.

(** [strings.Replace(s, "\t", new, -1)]: every tab byte is replaced. *)
Fixpoint ReplaceTab (s new : gostring) : gostring :=
  match s with
  | [] => []
  | c :: r => if Ascii.eqb c TAB then new ++ ReplaceTab r new
              else c :: ReplaceTab r new
  end.

(** [strings.HasPrefix] and [strings.TrimPrefix] *)
Fixpoint HasPrefix (s p : gostring) {struct p} : bool :=
  match p, s with
  | [], _ => true
  | a :: p', b :: s' => Ascii.eqb a b && HasPrefix s' p'
  | _ :: _, [] => false
  end.

Definition TrimPrefix (s p : gostring) : gostring :=
  if HasPrefix s p then drop (length p) s else s.

(** ** UTF-8, as [range] over a string and [string(rune)] use it

    [decodeRune] follows [utf8.DecodeRuneInString]: the first byte
    selects the width and the range accepted for the second byte; an
    invalid or truncated sequence decodes to [RuneError] with width 1.
    The masks and shifts of the library are written as the arithmetic
    they perform on the accepted byte ranges. *)

Definition RuneError : Z := 0xFFFD.

Definition between (lo x hi : Z) : bool := (lo <=? x) && (x <=? hi).

Definition decodeRune (s : gostring) : Z * nat :=
  match s with
  | [] => (RuneError, 0%nat)
  | c0 :: s1 =>
      let b0 := byteval c0 in
      if b0 <? 0x80 then (b0, 1%nat)
      else if b0 <? 0xC2 then (RuneError, 1%nat)
      else if b0 <? 0xE0 then
        match s1 with
        | c1 :: _ =>
            let b1 := byteval c1 in
            if between 0x80 b1 0xBF
            then ((b0 - 0xC0) * 64 + (b1 - 0x80), 2%nat)
            else (RuneError, 1%nat)
        | [] => (RuneError, 1%nat)
        end
      else if b0 <? 0xF0 then
        match s1 with
        | c1 :: c2 :: _ =>
            let b1 := byteval c1 in
            let b2 := byteval c2 in
            let lo := if b0 =? 0xE0 then 0xA0 else 0x80 in
            let hi := if b0 =? 0xED then 0x9F else 0xBF in
            if between lo b1 hi then
              if between 0x80 b2 0xBF
              then ((b0 - 0xE0) * 4096 + (b1 - 0x80) * 64 + (b2 - 0x80), 3%nat)
              else (RuneError, 1%nat)
            else (RuneError, 1%nat)
        | _ => (RuneError, 1%nat)
        end
      else if b0 <? 0xF5 then
        match s1 with
        | c1 :: c2 :: c3 :: _ =>
            let b1 := byteval c1 in
            let b2 := byteval c2 in
            let b3 := byteval c3 in
            let lo := if b0 =? 0xF0 then 0x90 else 0x80 in
            let hi := if b0 =? 0xF4 then 0x8F else 0xBF in
            if between lo b1 hi then
              if between 0x80 b2 0xBF then
                if between 0x80 b3 0xBF
                then ((b0 - 0xF0) * 262144 + (b1 - 0x80) * 4096
                      + (b2 - 0x80) * 64 + (b3 - 0x80), 4%nat)
                else (RuneError, 1%nat)
              else (RuneError, 1%nat)
            else (RuneError, 1%nat)
        | _ => (RuneError, 1%nat)
        end
      else (RuneError, 1%nat)
  end.

(** [string(r)], that is [utf8.AppendRune]: out-of-range runes and
    surrogates are written as [RuneError]. *)
Definition encode3 (r : Z) : gostring :=
  [asc (0xE0 + r / 4096); asc (0x80 + (r / 64) mod 64); asc (0x80 + r mod 64)].

Definition encodeRune (r : Z) : gostring :=
  if between 0 r 0x7F then [asc r]
  else if between 0 r 0x7FF then [asc (0xC0 + r / 64); asc (0x80 + r mod 64)]
  else if (r <? 0) || (0x10FFFF <? r) || between 0xD800 r 0xDFFF
       then encode3 RuneError
  else if r <=? 0xFFFF then encode3 r
  else [asc (0xF0 + r / 262144); asc (0x80 + (r / 4096) mod 64);
        asc (0x80 + (r / 64) mod 64); asc (0x80 + r mod 64)].

(** [unicode.IsSpace]: the Latin-1 switch, then the [White_Space] range
    table. *)
Definition IsSpace (r : Z) : bool :=
  if between 0 r 0xFF then
    between 0x09 r 0x0D || (r =? 0x20) || (r =? 0x85) || (r =? 0xA0)
  else
    (r =? 0x1680) || between 0x2000 r 0x200A || between 0x2028 r 0x2029
    || (r =? 0x202F) || (r =? 0x205F) || (r =? 0x3000).

(** ** text.go *)

(** [leftSpace]: the loop over the runes of [s], stopping at the first
    rune that is not a space; every iteration consumes at least one
    byte, so [length s] iterations are enough. *)
Fixpoint leftSpace_loop (fuel : nat) (s : gostring) : gostring :=
  match fuel with
  | O => []
  | S fuel' =>
      match s with
      | [] => []
      | _ :: _ =>
          let '(c, n) := decodeRune s in
          if IsSpace c then encodeRune c ++ leftSpace_loop fuel' (drop n s)
          else []
      end
  end.

Definition leftSpace (s : gostring) : gostring := leftSpace_loop (length s) s.

(** A [block] is its slice of lines. *)
Abbreviation block := (list gostring).

Definition newBlock (s : gostring) : block := Split s.

Definition cutset : gostring := [SP; TAB; CR; LF].

(** The two index loops of [trimSpace]: [i] skips the leading blank
    lines, [j] the trailing ones, and the block keeps [lines[i:j]]. *)
Fixpoint dropBlankHead (ls : list gostring) : list gostring :=
  match ls with
  | l :: rest => if is_empty l then dropBlankHead rest else ls
  | [] => []
  end.

Fixpoint dropBlankTail (ls : list gostring) : list gostring :=
  match ls with
  | [] => []
  | l :: rest =>
      match dropBlankTail rest with
      | [] => if is_empty l then [] else [l]
      | rest' => l :: rest'
      end
  end.

Definition trimSpace (t : block) : block :=
  let lines := map (fun line => TrimRight line cutset) t in
  dropBlankTail (dropBlankHead lines).

Definition untabify (width : Z) (t : block) : block :=
  let width := if width <=? 0 then 4 else width in
  let spaces := Repeat SP width in
  map (fun line => ReplaceTab line spaces) t.

(** First loop of [leftJust]: [min] points at the leading space of the
    first non-empty line whose leading space is strictly shorter (in
    bytes) than every earlier candidate. *)
Fixpoint minSpace (min : option gostring) (ls : list gostring) : option gostring :=
  match ls with
  | [] => min
  | line :: rest =>
      let spc := leftSpace line in
      let min' :=
        if negb (is_empty line) &&
           match min with
           | None => true
           | Some m => (length spc <? length m)%nat
           end
        then Some spc else min in
      minSpace min' rest
  end.

Definition leftJust (t : block) : block :=
  match minSpace None t with
  | Some m => map (fun line => TrimPrefix line m) t
  | None => t
  end.

(** [indent]: every line except an empty last one gets the marker, and
    is trimmed on the right again. *)
Fixpoint indent_loop (ind : gostring) (ls : list gostring) : list gostring :=
  match ls with
  | [] => []
  | line :: rest =>
      (* [i+1 == len(t.lines)] holds exactly on the last line *)
      (if is_empty line && is_empty rest then line
       else TrimRight (ind ++ line) cutset) :: indent_loop ind rest
  end.

Definition indent (ind : gostring) (t : block) : block := indent_loop ind t.

Definition prepend (s : gostring) (t : block) : block := s :: t.
Definition append (ss : list gostring) (t : block) : block := t ++ ss.
(** [block.String] *)
Definition block_String (t : block) : gostring := Join t.

(** An [Indenting] is a function value in the source, built only by
    [IPrefix] and [IComment]; [nil] is the identity.  The two builders
    are the constructors here and [fix_] applies a rule. *)
Inductive Indenting : Type :=
| IPrefix (marker : gostring)
| IComment (first rest last : gostring).

Definition apply_rule (r : Indenting) (b : block) : block :=
  match r with
  | IPrefix marker => indent marker b
  | IComment first rest last => append [last] (prepend first (indent rest b))
  end.

Definition fix_ (r : option Indenting) (b : block) : block :=
  match r with
  | None => b
  | Some f => apply_rule f b
  end.

(** license.go: [cleanup] *)
Definition cleanup (text : gostring) : block :=
  leftJust (untabify 0 (trimSpace (newBlock text))).

(** ** license.go: the data *)

Record License : Type := mkLicense {
  Name : gostring;
  Slug : gostring;
  URL : gostring;
  Text : gostring;
  PerFile : gostring
}.

(** [Config]; the time is used only through its [Format] method, which
    the template functions [date] and [time] call with a layout. *)
Record Config : Type := mkConfig {
  Author : gostring;
  Project : gostring;
  Time : gostring -> gostring
}.

(** ** Results of calls

    A call returns, panics, or is still running when the fuel given to
    its loops is used up. *)
Inductive outcome (A : Type) : Type :=
| Done (a : A)
| Panicked (msg : string)
| OutOfFuel.
Arguments Done {A} a.
Arguments Panicked {A} msg.
Arguments OutOfFuel {A}.

Definition bind {A B} (o : outcome A) (k : A -> outcome B) : outcome B :=
  match o with
  | Done a => k a
  | Panicked msg => Panicked msg
  | OutOfFuel => OutOfFuel
  end.

(** Go compares strings byte by byte. *)
Definition string_eq (a b : gostring) : bool := bool_decide (a = b).

Fixpoint string_lt (a b : gostring) : bool :=
  match a, b with
  | _, [] => false
  | [], _ :: _ => true
  | x :: a', y :: b' =>
      (byteval x <? byteval y) || ((byteval x =? byteval y) && string_lt a' b')
  end.

(** [s[i]] on a slice, with Go's bounds check *)
Definition index {A} (s : list A) (i : Z) : option A :=
  if (0 <=? i) && (i <? Z.of_nat (length s)) then s !! Z.to_nat i else None.

(** ** registry.go *)

Module registry.

Record t : Type := mk { known : list License }.

(** The loop of [lookup], on the bounds [i] and [j]. *)
Fixpoint lookup_loop (fuel : nat) (known : list License) (slug : gostring)
         (i j : Z) : outcome (Z * bool) :=
  match fuel with
  | O => OutOfFuel
  | S fuel' =>
      if i <=? j then
        let m := (i + j) ÷ 2 in
        match index known m with
        | None => Panicked "index out of range"
        | Some lic =>
            let cur := Slug lic in
            if string_eq slug cur then Done (m, true)
            else if string_lt slug cur then lookup_loop fuel' known slug i m
            else lookup_loop fuel' known slug (m + 1) j
        end
      else Done (i, false)
  end.

Definition lookup (fuel : nat) (r : t) (slug : gostring) : outcome (Z * bool) :=
  lookup_loop fuel (known r) slug 0 (Z.of_nat (length (known r)) - 1).

Definition fetch (fuel : nat) (r : t) (slug : gostring) : outcome (option License) :=
  bind (lookup fuel r slug) (fun '(i, ok) =>
    if ok then
      match index (known r) i with
      | Some out => Done (Some out)
      | None => Panicked "index out of range"
      end
    else Done None).

Definition visit {S} (r : t) (f : License -> S -> S) (s : S) : S :=
  fold_left (fun acc lic => f lic acc) (known r) s.

(** [append(append(known[:i], lic), known[i:]...)].  The inner append
    has room in the backing array whenever [i < len(known)], so it
    stores [lic] at index [i] of the array that [known] still views;
    [known[i:]] is read after that store.  For [i = len(known)] the
    stored cell lies outside [known] and [known[i:]] is empty. *)
Definition splice (known : list License) (i : nat) (lic : License) : list License :=
  take i known ++ lic :: drop i (<[i:=lic]> known).

Definition insert (fuel : nat) (r : t) (lic : License) : outcome (t * bool) :=
  bind (lookup fuel r (Slug lic)) (fun '(i, ok) =>
    if ok then Done (r, false)
    else if (0 <=? i) && (i <=? Z.of_nat (length (known r)))
         then Done (mk (splice (known r) (Z.to_nat i) lic), true)
         else Panicked "slice bounds out of range").

End registry.

(** The package variable [global] is threaded through the exported
    functions.  [Register] gives back the value of [global] at the
    moment the call stops, with the way it stopped. *)
Module licenses.

Definition global0 : registry.t := registry.mk [].

Definition Register (fuel : nat) (global : registry.t) (lic : License)
  : registry.t * outcome unit :=
  if is_empty (Slug lic) then (global, Panicked "empty license slug")
  else match registry.insert fuel global lic with
       | Done (g', true) => (g', Done tt)
       | Done (g', false) => (g', Panicked "duplicate registrations for slug")
       | Panicked msg => (global, Panicked msg)
       | OutOfFuel => (global, OutOfFuel)
       end.

Definition Lookup (fuel : nat) (global : registry.t) (slug : gostring)
  : outcome (option License) :=
  registry.fetch fuel global slug.

Definition List {S} (global : registry.t) (f : License -> S -> S) (s : S) : S :=
  registry.visit global f s.

(** A registration sequence, run from the empty registry; it stops at
    the first call that does not return. *)
Fixpoint RegisterAll (fuel : nat) (global : registry.t) (lics : list License)
  : registry.t * outcome unit :=
  match lics with
  | [] => (global, Done tt)
  | lic :: rest =>
      match Register fuel global lic with
      | (g', Done _) => RegisterAll fuel g' rest
      | stopped => stopped
      end
  end.

End licenses.

(** ** text/template, as far as the license texts use it

    The standard library's template engine is outside the repository.
    Its behaviour is modelled for the action forms the license texts are
    written in: [{{.Author}}], [{{.Project}}], [{{date "layout"}}],
    [{{time "layout"}}], [{{if .Field}}] and [{{end}}], with the default
    delimiters and no trim markers.  Text outside actions is copied
    verbatim.  Any other action is reported as a parse error. *)

Inductive result (A : Type) : Type :=
| Ok (a : A)
| Err (msg : string).
Arguments Ok {A} a.
Arguments Err {A} msg.

Definition DQ : ascii := "034"%char.
Definition BACKSLASH : ascii := "092"%char.
Definition LBRACE : ascii := "{"%char.
Definition RBRACE : ascii := "}"%char.

Inductive field : Type := FAuthor | FProject.

Inductive token : Type :=
| TText (s : gostring)
| TField (f : field)
| TFormat (layout : gostring)
| TIf (f : field)
| TEnd.

Inductive node : Type :=
| NText (s : gostring)
| NField (f : field)
| NFormat (layout : gostring)
| NIf (f : field) (body : list node).

(** Splitting at the delimiters: [(false, s)] is literal text, [(true,
    s)] the inside of an action. *)
Fixpoint lex (inAct : bool) (acc : gostring) (s : gostring)
  : option (list (bool * gostring)) :=
  match s with
  | [] => if inAct then None else Some [(false, rev acc)]
  | c :: r =>
      match r with
      | d :: r' =>
          if inAct then
            if Ascii.eqb c RBRACE && Ascii.eqb d RBRACE
            then option_map (cons (true, rev acc)) (lex false [] r')
            else lex true (c :: acc) r
          else
            if Ascii.eqb c LBRACE && Ascii.eqb d LBRACE
            then option_map (cons (false, rev acc)) (lex true [] r')
            else lex false (c :: acc) r
      | [] => if inAct then None else Some [(false, rev (c :: acc))]
      end
  end.

Fixpoint dropSpaces (s : gostring) : gostring :=
  match s with
  | c :: r => if mem c cutset then dropSpaces r else s
  | [] => []
  end.

Definition trimSpaces (s : gostring) : gostring :=
  dropSpaces (TrimRight s cutset).

(** A string literal without escapes; a literal stops at the end of its
    line, so one that holds a line feed is not terminated. *)
Definition quoted (s : gostring) : option gostring :=
  match s with
  | q :: r =>
      match rev r with
      | q' :: l =>
          if Ascii.eqb q DQ && Ascii.eqb q' DQ
             && negb (mem DQ l) && negb (mem BACKSLASH l) && negb (mem LF l)
          then Some (rev l) else None
      | [] => None
      end
  | [] => None
  end.

Definition field_of (s : gostring) : option field :=
  if string_eq s (str ".Author") then Some FAuthor
  else if string_eq s (str ".Project") then Some FProject
  else None.

Definition keyword_arg (kw s : gostring) : option gostring :=
  if HasPrefix s kw then
    match drop (length kw) s with
    | c :: r => if mem c cutset then Some (dropSpaces r) else None
    | [] => None
    end
  else None.

Definition action (s : gostring) : option token :=
  let s := trimSpaces s in
  if string_eq s (str "end") then Some TEnd
  else match field_of s with
  | Some f => Some (TField f)
  | None =>
  match keyword_arg (str "if") s with
  | Some a => option_map TIf (field_of a)
  | None =>
  match keyword_arg (str "date") s with
  | Some a => option_map TFormat (quoted a)
  | None =>
  match keyword_arg (str "time") s with
  | Some a => option_map TFormat (quoted a)
  | None => None
  end end end end.

Fixpoint tokens (ps : list (bool * gostring)) : option (list token) :=
  match ps with
  | [] => Some []
  | (false, s) :: r => option_map (cons (TText s)) (tokens r)
  | (true, s) :: r =>
      match action s, tokens r with
      | Some t, Some ts => Some (t :: ts)
      | _, _ => None
      end
  end.

(** [cur] holds the nodes of the list being built, last first; [stack]
    the enclosing [if] actions with the nodes that precede them. *)
Fixpoint build (ts : list token) (cur : list node)
         (stack : list (field * list node)) : option (list node) :=
  match ts with
  | [] => match stack with [] => Some (rev cur) | _ :: _ => None end
  | TText s :: r => build r (NText s :: cur) stack
  | TField f :: r => build r (NField f :: cur) stack
  | TFormat l :: r => build r (NFormat l :: cur) stack
  | TIf f :: r => build r [] ((f, cur) :: stack)
  | TEnd :: r =>
      match stack with
      | (f, outer) :: stack' => build r (NIf f (rev cur) :: outer) stack'
      | [] => None
      end
  end.

Definition Parse (text : gostring) : option (list node) :=
  match lex false [] text with
  | Some ps =>
      match tokens ps with
      | Some ts => build ts [] []
      | None => None
      end
  | None => None
  end.

Definition get (c : Config) (f : field) : gostring :=
  match f with FAuthor => Author c | FProject => Project c end.

Fixpoint exec (c : Config) (n : node) : gostring :=
  match n with
  | NText s => s
  | NField f => get c f
  | NFormat layout => Time c layout
  | NIf f body =>
      if is_empty (get c f) then [] else concat (map (exec c) body)
  end.

Definition Execute (c : Config) (ns : list node) : gostring :=
  concat (map (exec c) ns).

(** [Config.newTemplate]: a parse error, or the bytes that the returned
    function sends to its writer. *)
Definition newTemplate (c : Config) (text : gostring) : result gostring :=
  match Parse text with
  | Some ns => Ok (Execute c ns)
  | None => Err "parsing template"
  end.

(** [License.WriteText], as the bytes it sends to a writer that accepts
    them. *)
Definition WriteText (lic : option License) (c : Config) : result gostring :=
  match lic with
  | None => Err "no license found"
  | Some lic =>
      let clean := append [[]] (cleanup (Text lic)) in
      newTemplate c (block_String clean)
  end.

(** ** The registered license texts *)

(** Raw string literals are written with a backquote (which a Go raw
    string cannot contain) in place of each double quote. *)
Definition bq (s : string) : gostring :=
  map (fun c => if Ascii.eqb c "`"%char then DQ else c) (str s).

(** The lines of the raw string [PerFileNotice] (license.go). *)
Definition PerFileNotice_lines : list gostring :=
  [ [];
    bq "Copyright (C) {{date `2006`}} {{.Author}}. All Rights Reserved.";
    [] ].

(** The lines of [text] (package mit). *)
Definition mit_text_lines : list gostring :=
  [ [];
    bq "Copyright (c) {{date `2006`}} {{.Author}}";
    str " ";
    str "Permission is hereby granted, free of charge, to any person obtaining";
    str "a copy of this software and associated documentation files (the";
    bq "`Software`), to deal in the Software without restriction, including";
    str "without limitation the rights to use, copy, modify, merge, publish,";
    str "distribute, sublicense, and/or sell copies of the Software, and to";
    str "permit persons to whom the Software is furnished to do so, subject to";
    str "the following conditions:";
    [];
    str "The above copyright notice and this permission notice shall be";
    str "included in all copies or substantial portions of the Software.";
    [];
    bq "THE SOFTWARE IS PROVIDED `AS IS`, WITHOUT WARRANTY OF ANY KIND,";
    str "EXPRESS OR IMPLIED, INCLUDING BUT NOT LIMITED TO THE WARRANTIES OF";
    str "MERCHANTABILITY, FITNESS FOR A PARTICULAR PURPOSE AND NONINFRINGEMENT.";
    str "IN NO EVENT SHALL THE AUTHORS OR COPYRIGHT HOLDERS BE LIABLE FOR ANY";
    str "CLAIM, DAMAGES OR OTHER LIABILITY, WHETHER IN AN ACTION OF CONTRACT,";
    str "TORT OR OTHERWISE, ARISING FROM, OUT OF OR IN CONNECTION WITH THE";
    str "SOFTWARE OR THE USE OR OTHER DEALINGS IN THE SOFTWARE.";
    [] ].

(** The lines of the literal that starts [bsd3text] (package bsd). *)
Definition bsd3text_lines : list gostring :=
  [ [];
    str "BSD 3-Clause License";
    [];
    bq "Copyright (C) {{date `2006`}}, {{.Author}}";
    str "All Rights Reserved.";
    [];
    str "Redistribution and use in source and binary forms, with or without";
    str "modification, are permitted provided that the following conditions are met:";
    [];
    str "    (1) Redistributions of source code must retain the above copyright notice,";
    str "    this list of conditions and the following disclaimer.";
    [];
    str "    (2) Redistributions in binary form must reproduce the above copyright";
    str "    notice, this list of conditions and the following disclaimer in the";
    str "    documentation and/or other materials provided with the distribution.";
    [];
    str "    (3) The name of the author may not be used to endorse or promote products";
    str "    derived from this software without specific prior written permission.";
    [] ].

(** The lines of [disclaimer] (package bsd). *)
Definition disclaimer_lines : list gostring :=
  [ [];
    bq "THIS SOFTWARE IS PROVIDED BY THE AUTHOR `AS IS` AND ANY EXPRESS OR IMPLIED";
    str "WARRANTIES, INCLUDING, BUT NOT LIMITED TO, THE IMPLIED WARRANTIES OF";
    str "MERCHANTABILITY AND FITNESS FOR A PARTICULAR PURPOSE ARE DISCLAIMED. IN NO";
    str "EVENT SHALL THE AUTHOR BE LIABLE FOR ANY DIRECT, INDIRECT, INCIDENTAL, SPECIAL,";
    str "EXEMPLARY, OR CONSEQUENTIAL DAMAGES (INCLUDING, BUT NOT LIMITED TO, PROCUREMENT";
    str "OF SUBSTITUTE GOODS OR SERVICES; LOSS OF USE, DATA, OR PROFITS; OR BUSINESS";
    str "INTERRUPTION) HOWEVER CAUSED AND ON ANY THEORY OF LIABILITY, WHETHER IN";
    str "CONTRACT, STRICT LIABILITY, OR TORT (INCLUDING NEGLIGENCE OR OTHERWISE) ARISING";
    str "IN ANY WAY OUT OF THE USE OF THIS SOFTWARE, EVEN IF ADVISED OF THE POSSIBILITY";
    str "OF SUCH DAMAGE.";
    [] ].

(** The lines of the literal that starts [freetext] (package bsd). *)
Definition freetext_head_lines : list gostring :=
  [ [];
    bq "Copyright {{date `2006`}}, {{.Author}}";
    str "All Rights Reserved.";
    [];
    str "Redistribution and use in source and binary forms, with or without";
    str "modification, are permitted provided that the following conditions are met:";
    [];
    str "1. Redistributions of source code must retain the above copyright notice, this";
    str "   list of conditions and the following disclaimer.";
    [];
    str "2. Redistributions in binary form must reproduce the above copyright notice,";
    str "   this list of conditions and the following disclaimer in the documentation";
    str "   and/or other materials provided with the distribution.";
    [] ].

(** The lines of the literal that ends [freetext]. *)
Definition freetext_tail_lines : list gostring :=
  [ str "{{if .Project}}";
    str "The views and conclusions contained in the software and documentation are those";
    str "of the authors and should not be interpreted as representing official policies,";
    str "either expressed or implied, of the {{.Project}} Project.";
    str "{{end}}" ].

Definition PerFileNotice : gostring := Join PerFileNotice_lines.
Definition mit_text : gostring := Join mit_text_lines.
Definition disclaimer : gostring := Join disclaimer_lines.
Definition bsd3text : gostring := Join bsd3text_lines ++ disclaimer.
Definition freetext : gostring :=
  Join freetext_head_lines ++ disclaimer ++ Join freetext_tail_lines.

Definition mit_expat : License :=
  mkLicense (str "MIT License (Expat)") (str "mit-expat")
            (str "https://directory.fsf.org/wiki/License:Expat")
            mit_text PerFileNotice.

Definition freebsd : License :=
  mkLicense (str "FreeBSD software license") (str "freebsd")
            (str "https://www.freebsd.org/copyright/freebsd-license.html")
            freetext PerFileNotice.

Definition bsd3c : License :=
  mkLicense (str "Modified BSD license (3-clause)") (str "bsd3c")
            (str "https://directory.fsf.org/wiki/License:BSD-3-Clause")
            bsd3text PerFileNotice.

(** The entries whose packages are present, in slug order. *)
Definition registered : list License := [bsd3c; freebsd; mit_expat].

(** ** The file system seen by [EditFile]

    Files are the byte contents stored under their names.  A name stands
    for its absolute, cleaned path, so that [filepath.Abs] returns its
    argument when it succeeds, and the temporary name built from
    [filepath.Dir(abs)] and [filepath.Base(abs)+"~*"] is [abs], a tilde
    and the random part chosen by [os.CreateTemp].

    What the operating system decides is an [env]: which calls fail, how
    many bytes a failing write gets through, and the random names that
    [os.CreateTemp] draws.  The last switch is for the deferred
    [os.Remove], whose error the source does not look at. *)

Inductive event : Type :=
| ESeek (p : gostring)
| ECreate (p : gostring)
| EWrite (p : gostring) (data : gostring)
| ESync (p : gostring)
| EClose (p : gostring)
| ERename (src dst : gostring)
| ERemove (p : gostring).

Record world : Type := mkWorld {
  fs : gmap gostring gostring;
  log : list event
}.

(** An open [*os.File]: its name and its read offset. *)
Record File : Type := mkFile {
  fname : gostring;
  offset : nat
}.

Record env : Type := mkEnv {
  abs_fails : bool;
  seek_fails : bool;
  temp_names : list gostring;
  write_fails : option nat;
  copy_fails : option nat;
  sync_fails : bool;
  close_fails : bool;
  rename_fails : bool;
  remove_fails : bool
}.

Definition emit (e : event) (w : world) : world :=
  mkWorld (fs w) (log w ++ [e]).

Definition Abs (e : env) (name : gostring) : result gostring :=
  if abs_fails e then Err "getwd" else Ok name.

Definition Seek (e : env) (f : File) (w : world) : world * File * option string :=
  if seek_fails e then (w, f, Some "seek")
  else (emit (ESeek (fname f)) w, mkFile (fname f) 0, None).

Definition tempName (abs rnd : gostring) : gostring := abs ++ str "~" ++ rnd.

(** [os.CreateTemp] opens with [O_CREATE|O_EXCL] and draws a new name
    while the name exists; it gives up when its tries are used up. *)
Fixpoint CreateTemp (abs : gostring) (rnds : list gostring) (w : world)
  : world * result gostring :=
  match rnds with
  | [] => (w, Err "create temp")
  | rnd :: rest =>
      let tmp := tempName abs rnd in
      match fs w !! tmp with
      | Some _ => CreateTemp abs rest w
      | None => (emit (ECreate tmp) (mkWorld (<[tmp := []]> (fs w)) (log w)), Ok tmp)
      end
  end.

Definition content (w : world) (p : gostring) : gostring :=
  default [] (fs w !! p).

(** Appending to an open file; a failing write gets [k] bytes through. *)
Definition Write (fail : option nat) (p data : gostring) (w : world)
  : world * option string :=
  let sent := match fail with None => data | Some k => take k data end in
  (emit (EWrite p sent)
        (mkWorld (<[p := content w p ++ sent]> (fs w)) (log w)),
   match fail with None => None | Some _ => Some "write" end).

Definition Sync (e : env) (p : gostring) (w : world) : world * option string :=
  if sync_fails e then (w, Some "sync") else (emit (ESync p) w, None).

Definition Close (e : env) (p : gostring) (w : world) : world * option string :=
  (emit (EClose p) w, if close_fails e then Some "close" else None).

Definition Rename (e : env) (src dst : gostring) (w : world) : world * result unit :=
  if rename_fails e then (w, Err "rename")
  else match fs w !! src with
       | Some data =>
           (emit (ERename src dst)
                 (mkWorld (<[dst := data]> (delete src (fs w))) (log w)), Ok tt)
       | None => (w, Err "rename: no such file")
       end.

(** [os.Remove]; the source drops its result, so a call that fails
    goes unnoticed and leaves the file where it is.  Removing a name
    that is no longer there changes nothing. *)
Definition Remove (e : env) (p : gostring) (w : world) : world :=
  if remove_fails e then w
  else match fs w !! p with
       | Some _ => emit (ERemove p) (mkWorld (delete p (fs w)) (log w))
       | None => w
       end.

Definition to_result (err : option string) : result unit :=
  match err with None => Ok tt | Some msg => Err msg end.

(** [License.EditFile] *)
Definition EditFile (e : env) (lic : option License) (f : File) (c : Config)
           (indent : option Indenting) (w : world) : world * result unit :=
  match lic with
  | None => (w, Ok tt)
  | Some lic =>
  if is_empty (PerFile lic) then (w, Ok tt) else
  match Abs e (fname f) with
  | Err msg => (w, Err msg)
  | Ok abs =>
  match Seek e f w with
  | (w, _, Some msg) => (w, Err msg)
  | (w, f, None) =>
  let clean := append [[LF]] (fix_ indent (cleanup (PerFile lic))) in
  match newTemplate c (block_String clean) with
  | Err msg => (w, Err msg)
  | Ok header =>
  match CreateTemp abs (temp_names e) w with
  | (w, Err msg) => (w, Err msg)
  | (w, Ok tmp) =>
      (* the deferred [os.Remove(tmp.Name())] runs last on every path below *)
      let '(w, res) :=
        let '(w, err) := Write (write_fails e) tmp header w in
        let '(w, err) :=
          match err with
          | None =>
              let '(w, err) :=
                Write (copy_fails e) tmp (drop (offset f) (content w (fname f))) w in
              match err with
              | None => Sync e tmp w
              | Some _ => (w, err)
              end
          | Some _ => (w, err)
          end in
        let '(w, cerr) := Close e tmp w in
        match err, cerr with
        | Some msg, _ => (w, Err msg)
        | None, Some msg => (w, Err msg)
        | None, None => Rename e tmp (fname f) w
        end in
      (Remove e tmp w, res)
  end end end end end.

(** ** lice.go: the indent table and [chooseIndent] *)

Definition indent_table : gmap gostring Indenting :=
  list_to_map
    [ (str "hash", IPrefix (str "# "));
      (str "slash", IPrefix (str "// "));
      (str "star", IComment (str "/*") (str "   ") (str " */"));
      (str "sstar", IComment (str "/*") (str " * ") (str " */"));
      (str "xml", IComment (str "<!--") (str "   ") (str "  -->")) ].

(** [filepath.Ext]: scan from the end to the final dot of the final
    element. *)
Fixpoint ext_scan (rs acc : gostring) : gostring :=
  match rs with
  | [] => []
  | c :: rest =>
      if Ascii.eqb c "/"%char then []
      else if Ascii.eqb c "."%char then c :: acc
      else ext_scan rest (c :: acc)
  end.

Definition Ext (path : gostring) : gostring := ext_scan (rev path) [].

Definition one_of (s : gostring) (cases : list gostring) : bool :=
  existsb (string_eq s) cases.

(** [style] is the value of [indentStyle.Key()]. *)
Definition chooseIndent (style path : gostring) : option Indenting :=
  match indent_table !! style with
  | Some r => Some r
  | None =>
      if negb (string_eq style (str "guess")) then None
      else
        let ext := Ext path in
        if one_of ext [[]; str ".sh"; str ".py"; str ".pl"; str ".rb"]
        then indent_table !! str "hash"
        else if one_of ext [str ".cc"; str ".cpp"; str ".go"; str ".java"; str ".js"]
        then indent_table !! str "slash"
        else if one_of ext [str ".c"; str ".h"]
        then indent_table !! str "star"
        else if one_of ext [str ".htm"; str ".html"; str ".xhtml"]
        then indent_table !! str "xml"
        else None
  end.

(** ** Notions of the specification *)

(** The extension table of the specification's style selection policy. *)
Definition hash_rule : Indenting := IPrefix (str "# ").
Definition slash_rule : Indenting := IPrefix (str "// ").
Definition star_rule : Indenting := IComment (str "/*") (str "   ") (str " */").
Definition xml_rule : Indenting := IComment (str "<!--") (str "   ") (str "  -->").

Definition spec_extension_table : list (gostring * Indenting) :=
  [ ([], hash_rule); (str ".sh", hash_rule); (str ".py", hash_rule);
    (str ".pl", hash_rule); (str ".rb", hash_rule);
    (str ".cc", slash_rule); (str ".cpp", slash_rule); (str ".go", slash_rule);
    (str ".java", slash_rule); (str ".js", slash_rule);
    (str ".c", star_rule); (str ".h", star_rule);
    (str ".htm", xml_rule); (str ".html", xml_rule); (str ".xhtml", xml_rule) ].

Definition spec_rule_of_extension (ext : gostring) : option Indenting :=
  snd <$> find (fun entry => string_eq ext (fst entry)) spec_extension_table.

(** Registries that calls of [Register] can produce from the empty one,
    whatever way the calls stopped. *)
Inductive reachable : registry.t -> Prop :=
| reachable_init : reachable licenses.global0
| reachable_Register fuel g lic :
    reachable g -> reachable (fst (licenses.Register fuel g lic)).

(** The events a call added to the log. *)
Definition new_events (w w' : world) : list event :=
  drop (length (log w)) (log w').

Definition is_rename (e : event) : bool :=
  match e with ERename _ _ => true | _ => false end.

Definition created (evs : list event) : list gostring :=
  omap (fun e => match e with ECreate p => Some p | _ => None end) evs.

(** Text that ends with one line feed and no blank line before it. *)
Definition one_trailing_newline (out : gostring) : Prop :=
  [LF] `suffix_of` out /\ ~ [LF; LF] `suffix_of` out.

(** The template text that [WriteText] parses. *)
Definition template_text (lic : License) : gostring :=
  block_String (append [[]] (cleanup (Text lic))).

(** The block that [cleanup] hands to [leftJust]. *)
Definition expanded (text : gostring) : block :=
  untabify 0 (trimSpace (newBlock text)).

(** Every line of [text] that consists of whitespace characters only is
    made of spaces, tabs and carriage returns, the characters that
    [trimSpace] strips. *)
Definition blank_lines_plain (text : gostring) : bool :=
  forallb (fun l => implb (string_eq (leftSpace l) l)
                          (forallb (fun c => mem c cutset) l))
          (Split text).

(** ** Notions used in the proofs *)

(** The number of bytes of the space rune at the head of [s], or 0. *)
Definition spaceWidth (s : gostring) : nat :=
  let '(r, n) := decodeRune s in if IsSpace r then n else 0%nat.

(** What a space rune at the head of a string looks like: one byte
    below 0x80, or two or three bytes from 0x80 up that decode the same
    whatever follows, and that [string(rune)] writes back. *)
Inductive space_head : gostring -> nat -> Prop :=
| space_head1 c r :
    byteval c < 0x80 -> IsSpace (byteval c) = true ->
    space_head (c :: r) 1
| space_head2 c d r :
    0x80 <= byteval c -> 0x80 <= byteval d ->
    (forall r', decodeRune (c :: d :: r') = decodeRune (c :: d :: r)) ->
    space_head (c :: d :: r) 2
| space_head3 c d e r :
    0x80 <= byteval c -> 0x80 <= byteval d -> 0x80 <= byteval e ->
    (forall r', decodeRune (c :: d :: e :: r') = decodeRune (c :: d :: e :: r)) ->
    space_head (c :: d :: e :: r) 3.

(** A string made of space runes only: it is empty, or it starts with
    the bytes of a rune that [unicode.IsSpace] accepts and goes on with
    such a string. *)
Inductive space_runes : gostring -> Prop :=
| space_runes_nil : space_runes []
| space_runes_cons s r n :
    decodeRune s = (r, n) -> IsSpace r = true -> (0 < n)%nat ->
    space_runes (drop n s) -> space_runes s.

(** The characters that [TrimRight] strips. *)
Definition in_cutset (c : ascii) : Prop := mem c cutset = true.

(** A line that [TrimRight] leaves as it is. *)
Definition trimmed (l : gostring) : Prop :=
  forall c, last l = Some c -> ~ in_cutset c.

(** The characters a cleaned line does not hold. *)
Definition plain (c : ascii) : Prop := c <> TAB /\ c <> LF.

(** What [untabify(0)] puts in place of a tab. *)
Definition spaces4 : gostring := Repeat SP 4.

(** The first line, and the last line, is not blank. *)
Definition headOK (t : list gostring) : Prop := forall l, head t = Some l -> l <> [].
Definition lastOK (t : list gostring) : Prop := forall l, last t = Some l -> l <> [].

(** A line without trailing whitespace, tabs and line feeds. *)
Definition line_ok (l : gostring) : Prop := trimmed l /\ Forall plain l.

(** A block of such lines, with no blank line at either end, one of
    whose non-blank lines starts at the left margin. *)
Definition clean (t : list gostring) : Prop :=
  Forall line_ok t /\ headOK t /\ lastOK t
  /\ (t = [] \/ exists l, l ∈ t /\ l <> [] /\ leftSpace l = []).

(** [a] comes before [b] in slug order. *)
Definition slug_lt (a b : License) : Prop := string_lt (Slug a) (Slug b) = true.

(** * Properties *)

(** ** The prefix rule (C2) *)

(** C2, as stated: the prefix rule with marker "# " would map the lines
    a, (blank), b to "# a", (blank), "# b".  It does not: the interior
    blank line becomes "#". *)
Lemma C2_prefix_rule_counterexample :
  fix_ (Some (IPrefix (str "# "))) [str "a"; []; str "b"]
  <> [str "# a"; []; str "# b"].
Proof. vm_compute. discriminate. Qed.

(** C2, amended: the prefix rule with marker "# " maps the lines a,
    (blank), b to "# a", "#", "# b": on the interior blank line the
    marker is kept and only its trailing space is trimmed. *)
Theorem C2_prefix_rule :
  fix_ (Some (IPrefix (str "# "))) [str "a"; []; str "b"]
  = [str "# a"; str "#"; str "# b"].
Proof. reflexivity. Qed.

(** ** No per-file text (C7) *)

(** C7: with an empty per-file text, [EditFile] returns nil and the
    world is the one it started from: no file changed, no temporary file
    created, nothing renamed, no event logged. *)
Theorem C7_EditFile_no_perfile e lic f c ind w :
  PerFile lic = [] ->
  EditFile e (Some lic) f c ind w = (w, Ok tt).
Proof. intros H. unfold EditFile. rewrite H. reflexivity. Qed.

Lemma C7_EditFile_no_perfile_witness :
  let lic := mkLicense (str "Public domain") (str "pd") [] (str "No rights reserved.") [] in
  let e := mkEnv false false [str "1"] None None false false false false in
  let f := mkFile (str "/src/a.go") 0 in
  let c := mkConfig (str "Ann") [] (fun _ => str "2018") in
  let w := mkWorld {[ str "/src/a.go" := str "package a" ]} [] in
  PerFile lic = [] /\
  EditFile e (Some lic) f c (Some slash_rule) w = (w, Ok tt).
Proof.
  split; [reflexivity | apply C7_EditFile_no_perfile; reflexivity].
Defined.

(** ** Extension inference (C8) *)

Lemma string_eq_true a b : string_eq a b = true <-> a = b.
Proof. unfold string_eq. apply bool_decide_eq_true. Qed.

(** C8: in guess mode the chosen rule is the specification's table
    applied to the extension of the path, and an extension outside the
    table (such as .rs) gives no rule. *)
Theorem C8_chooseIndent_guess :
  (forall path,
     chooseIndent (str "guess") path = spec_rule_of_extension (Ext path))
  /\ spec_rule_of_extension (str ".rs") = None
  /\ chooseIndent (str "guess") (str "src/main.rs") = None
  /\ chooseIndent (str "guess") (str "Makefile") = Some hash_rule.
Proof.
  split; [| repeat split; vm_compute; reflexivity].
  intros path. unfold chooseIndent.
  assert (indent_table !! str "guess" = None) as -> by (vm_compute; reflexivity).
  assert (indent_table !! str "hash" = Some hash_rule) as -> by (vm_compute; reflexivity).
  assert (indent_table !! str "slash" = Some slash_rule) as -> by (vm_compute; reflexivity).
  assert (indent_table !! str "star" = Some star_rule) as -> by (vm_compute; reflexivity).
  assert (indent_table !! str "xml" = Some xml_rule) as -> by (vm_compute; reflexivity).
  assert (string_eq (str "guess") (str "guess") = true) as ->
      by (apply string_eq_true; reflexivity).
  generalize (Ext path) as ext. intros ext.
  unfold spec_rule_of_extension, spec_extension_table, one_of.
  cbn [existsb find fst snd negb orb].
  repeat (match goal with
          | |- context [string_eq ext ?k] => destruct (string_eq ext k)
          end; cbn [orb fmap option_fmap option_map snd]; try reflexivity).
Qed.

(** ** The registry (C4, C9, C10) *)

Lemma string_eq_false a b : string_eq a b = false <-> a <> b.
Proof. unfold string_eq. apply bool_decide_eq_false. Qed.

Lemma elem_of_splice (known : list License) i lic x :
  x ∈ registry.splice known i lic -> x = lic \/ x ∈ known.
Proof.
  unfold registry.splice. rewrite elem_of_app, elem_of_cons.
  intros [H | [H | H]].
  - right. now apply (subseteq_take i known).
  - now left.
  - apply (subseteq_drop i) in H.
    apply list_elem_of_lookup in H as [k Hk].
    destruct (decide (i = k)) as [-> | Hne].
    + destruct (decide (k < length known)%nat).
      * rewrite list_lookup_insert_eq in Hk by assumption. left. congruence.
      * rewrite list_insert_ge in Hk by lia. right. eapply list_elem_of_lookup_2; eauto.
    + rewrite list_lookup_insert_ne in Hk by assumption.
      right. eapply list_elem_of_lookup_2; eauto.
Qed.

Lemma Register_keeps_slugs fuel g lic :
  Forall (fun l => Slug l <> []) (registry.known g) ->
  Forall (fun l => Slug l <> []) (registry.known (fst (licenses.Register fuel g lic))).
Proof.
  intros Hg. unfold licenses.Register, registry.insert.
  destruct (registry.lookup fuel g (Slug lic)) as [[i ok] | |];
    destruct (Slug lic) as [| c s] eqn:Hslug; cbn [is_empty bind fst]; try exact Hg.
  destruct ok; [exact Hg |].
  destruct (_ && _); cbn [fst]; [| exact Hg].
  apply Forall_forall. intros x Hx. cbn [registry.known] in Hx.
  apply elem_of_splice in Hx as [-> | Hx].
  - rewrite Hslug. discriminate.
  - rewrite Forall_forall in Hg. now apply Hg.
Qed.

Lemma reachable_slugs g :
  reachable g -> Forall (fun l => Slug l <> []) (registry.known g).
Proof.
  induction 1 as [| fuel g lic _ IH]; [constructor |].
  now apply Register_keeps_slugs.
Qed.

(** C10: [Register] with an empty slug panics and [global] keeps the
    value it had; a registry built by [Register] calls holds no entry
    with an empty slug. *)
Theorem C10_Register_empty_slug fuel g lic :
  Slug lic = [] ->
  licenses.Register fuel g lic = (g, Panicked "empty license slug")
  /\ (reachable g ->
      Forall (fun l => Slug l <> [])
             (registry.known (fst (licenses.Register fuel g lic)))).
Proof.
  intros H. split.
  - unfold licenses.Register. rewrite H. reflexivity.
  - intros Hg. apply reachable_slugs. now constructor.
Qed.

Lemma C10_Register_empty_slug_witness :
  let lic := mkLicense (str "Nameless") [] [] (str "text") [] in
  let g := fst (licenses.Register 1 licenses.global0 mit_expat) in
  Slug lic = [] /\
  (licenses.Register 5 g lic = (g, Panicked "empty license slug")
   /\ (reachable g ->
       Forall (fun l => Slug l <> [])
              (registry.known (fst (licenses.Register 5 g lic))))).
Proof.
  split; [reflexivity | apply C10_Register_empty_slug; reflexivity].
Defined.

(** One turn of the loop of [lookup]. *)
Lemma lookup_loop_step fuel known slug i j :
  registry.lookup_loop (S fuel) known slug i j =
  if i <=? j then
    match index known ((i + j) ÷ 2) with
    | None => Panicked "index out of range"
    | Some lic =>
        if string_eq slug (Slug lic) then Done ((i + j) ÷ 2, true)
        else if string_lt slug (Slug lic)
             then registry.lookup_loop fuel known slug i ((i + j) ÷ 2)
             else registry.lookup_loop fuel known slug ((i + j) ÷ 2 + 1) j
    end
  else Done (i, false).
Proof. reflexivity. Qed.

(** When both bounds meet on an entry above the slug, [j = m] leaves the
    bounds as they are: the loop never ends. *)
Lemma lookup_loop_stuck known slug i lic :
  index known i = Some lic ->
  string_eq slug (Slug lic) = false ->
  string_lt slug (Slug lic) = true ->
  forall fuel, registry.lookup_loop fuel known slug i i = OutOfFuel.
Proof.
  intros Hi Hne Hlt fuel. induction fuel as [| fuel IH]; [reflexivity |].
  rewrite lookup_loop_step, Z.leb_refl.
  replace ((i + i) ÷ 2) with i by (rewrite <- (Z.quot_mul i 2) at 1 by lia; f_equal; lia).
  rewrite Hi, Hne, Hlt. exact IH.
Qed.

Lemma midpoint_bounds i j : 0 <= i -> i <= j -> i <= (i + j) ÷ 2 <= j.
Proof.
  intros Hi Hij. rewrite Z.quot_div_nonneg by lia. split.
  - apply Z.div_le_lower_bound; lia.
  - apply Z.div_le_upper_bound; lia.
Qed.

(** Once [j] sits on an entry above the slug, the search does not come
    back with "absent". *)
Lemma lookup_loop_no_false fuel known slug i j lic r :
  0 <= i -> i <= j ->
  index known j = Some lic ->
  string_eq slug (Slug lic) = false ->
  string_lt slug (Slug lic) = true ->
  registry.lookup_loop fuel known slug i j <> Done (r, false).
Proof.
  revert i j lic. induction fuel as [| fuel IH]; intros i j lic Hi Hij Hj Hne Hlt;
    [discriminate |].
  rewrite lookup_loop_step. destruct (Z.leb_spec i j); [| lia].
  pose proof (midpoint_bounds i j Hi Hij) as Hm.
  destruct (index known ((i + j) ÷ 2)) as [cur |] eqn:Ecur; [| discriminate].
  destruct (string_eq slug (Slug cur)) eqn:Eeq; [discriminate |].
  destruct (string_lt slug (Slug cur)) eqn:Elt.
  - apply (IH i _ cur); (lia || assumption).
  - assert ((i + j) ÷ 2 <> j) as Hmj by (intros E; rewrite E in Ecur; congruence).
    apply (IH _ j lic); (lia || assumption).
Qed.

(** [lookup] reports a slug as absent only with the insertion point at
    the end of the list. *)
Lemma lookup_loop_false_end fuel known slug i r :
  0 <= i <= Z.of_nat (length known) ->
  registry.lookup_loop fuel known slug i (Z.of_nat (length known) - 1) = Done (r, false) ->
  r = Z.of_nat (length known).
Proof.
  revert i. induction fuel as [| fuel IH]; intros i Hi; [discriminate |].
  rewrite lookup_loop_step.
  destruct (Z.leb_spec i (Z.of_nat (length known) - 1)) as [Hij | Hij];
    [| intros [= <-]; lia].
  pose proof (midpoint_bounds i _ (proj1 Hi) Hij) as Hm.
  destruct (index known ((i + (Z.of_nat (length known) - 1)) ÷ 2)) as [cur |] eqn:Ecur;
    [| discriminate].
  destruct (string_eq slug (Slug cur)) eqn:Eeq; [discriminate |].
  destruct (string_lt slug (Slug cur)) eqn:Elt.
  - intros H. exfalso. revert H.
    apply (lookup_loop_no_false fuel known slug i _ cur); (lia || assumption).
  - apply IH. lia.
Qed.

Lemma splice_end (known : list License) lic :
  registry.splice known (length known) lic = known ++ [lic].
Proof.
  unfold registry.splice.
  rewrite firstn_all, list_insert_ge, drop_all by lia. reflexivity.
Qed.

(** A call of [Register] that returns has put the license at the end of
    the list. *)
Lemma Register_Done_appends fuel g lic g' :
  licenses.Register fuel g lic = (g', Done tt) ->
  registry.known g' = registry.known g ++ [lic].
Proof.
  unfold licenses.Register, registry.insert, registry.lookup.
  destruct (is_empty (Slug lic)); [discriminate |].
  destruct (registry.lookup_loop fuel (registry.known g) (Slug lic) 0
              (Z.of_nat (length (registry.known g)) - 1)) as [[i ok] | |] eqn:E;
    cbn [bind]; try discriminate.
  destruct ok; [discriminate |].
  apply lookup_loop_false_end in E; [| lia]. subst i.
  rewrite Z.leb_refl, Nat2Z.id.
  destruct (0 <=? _); cbn [andb]; [| discriminate].
  intros [= <-]. cbn [registry.known]. apply splice_end.
Qed.

(** *** The order of slugs *)

Lemma byteval_inj x y : byteval x = byteval y -> x = y.
Proof.
  unfold byteval. intros H. apply N2Z.inj in H.
  rewrite <- (ascii_N_embedding x), <- (ascii_N_embedding y). now rewrite H.
Qed.

Lemma string_lt_irrefl a : string_lt a a = false.
Proof.
  induction a as [| x a IH]; [reflexivity |]. cbn [string_lt].
  rewrite Z.ltb_irrefl, Z.eqb_refl, IH. reflexivity.
Qed.

Lemma string_lt_trans a b c :
  string_lt a b = true -> string_lt b c = true -> string_lt a c = true.
Proof.
  revert b c. induction a as [| x a IH]; intros [| y b] [| z c]; cbn [string_lt];
    try discriminate; try reflexivity.
  rewrite !orb_true_iff, !andb_true_iff, !Z.ltb_lt, !Z.eqb_eq.
  intros [Hxy | [Hxy Hab]] [Hyz | [Hyz Hbc]]; try (left; lia).
  right. split; [lia | now apply (IH b)].
Qed.

Lemma string_lt_total a b :
  a <> b -> string_lt a b = false -> string_lt b a = true.
Proof.
  revert b. induction a as [| x a IH]; intros [| y b]; cbn [string_lt];
    try congruence.
  intros Hne. rewrite orb_false_iff, andb_false_iff, orb_true_iff, andb_true_iff.
  rewrite Z.ltb_ge, !Z.eqb_neq, Z.ltb_lt, Z.eqb_eq.
  intros [Hge [Hxy | Hab]].
  - left. lia.
  - destruct (Z.eq_dec (byteval x) (byteval y)) as [E | E]; [| left; lia].
    right. split; [lia |]. apply IH; [| exact Hab].
    apply byteval_inj in E. congruence.
Qed.

Lemma string_lt_asym a b : string_lt a b = true -> string_lt b a = false.
Proof.
  intros Hab. destruct (string_lt b a) eqn:Hba; [| reflexivity].
  pose proof (string_lt_trans _ _ _ Hab Hba) as H.
  now rewrite string_lt_irrefl in H.
Qed.

Lemma string_lt_neq a b : string_lt a b = true -> string_eq b a = false.
Proof.
  intros Hab. apply string_eq_false. intros ->.
  now rewrite string_lt_irrefl in Hab.
Qed.

(** *** Registration in increasing order *)

Lemma index_Some {A} (l : list A) (i : Z) :
  0 <= i < Z.of_nat (length l) -> exists x, index l i = Some x /\ x ∈ l.
Proof.
  intros Hi. unfold index.
  destruct (Z.leb_spec 0 i); [| lia]. destruct (Z.ltb_spec i (Z.of_nat (length l))); [| lia].
  cbn [andb]. destruct (lookup_lt_is_Some_2 l (Z.to_nat i)) as [x Hx]; [lia |].
  exists x. split; [exact Hx | eapply list_elem_of_lookup_2; eauto].
Qed.

(** A slug above every entry is reported absent, after at most one
    turn of the loop per entry. *)
Lemma lookup_loop_above fuel known slug i :
  Forall (fun cur => string_lt (Slug cur) slug = true) known ->
  0 <= i <= Z.of_nat (length known) ->
  (Z.of_nat (length known) - i < Z.of_nat fuel) ->
  registry.lookup_loop fuel known slug i (Z.of_nat (length known) - 1)
  = Done (Z.of_nat (length known), false).
Proof.
  intros Hall. rewrite Forall_forall in Hall.
  revert i. induction fuel as [| fuel IH]; intros i Hi Hfuel; [lia |].
  rewrite lookup_loop_step.
  destruct (Z.leb_spec i (Z.of_nat (length known) - 1)) as [Hij | Hij];
    [| f_equal; f_equal; lia].
  pose proof (midpoint_bounds i _ (proj1 Hi) Hij) as Hm.
  destruct (index_Some known ((i + (Z.of_nat (length known) - 1)) ÷ 2)) as (cur & -> & Hin);
    [lia |].
  specialize (Hall cur Hin).
  rewrite (string_lt_neq _ _ Hall), (string_lt_asym _ _ Hall).
  apply IH; lia.
Qed.

Lemma StronglySorted_snoc {A} (R : A -> A -> Prop) l x :
  StronglySorted R l -> Forall (fun y => R y x) l -> StronglySorted R (l ++ [x]).
Proof.
  induction 1 as [| y l Hl IH Hy]; intros Hx; cbn [app].
  - repeat constructor.
  - inversion Hx; subst. constructor; [now apply IH |].
    apply Forall_app. split; [exact Hy | now repeat constructor].
Qed.

Lemma sorted_app_before (l : list License) x rest cur :
  StronglySorted slug_lt (l ++ x :: rest) -> cur ∈ l -> slug_lt cur x.
Proof.
  induction l as [| k ks IH]; intros Hsort Hcur; [now apply elem_of_nil in Hcur |].
  cbn [app] in Hsort. inversion Hsort as [| ? ? Hs Hk]; subst.
  apply elem_of_cons in Hcur as [-> | Hcur]; [| now apply IH].
  rewrite Forall_forall in Hk. apply Hk. apply elem_of_app. right. left.
Qed.

(** Licenses with non-empty slugs in strictly increasing order are all
    registered, and the registry lists them in that order. *)
Lemma RegisterAll_increasing lics known0 :
  StronglySorted slug_lt (known0 ++ lics) ->
  Forall (fun l => Slug l <> []) lics ->
  licenses.RegisterAll (S (length (known0 ++ lics))) (registry.mk known0) lics
  = (registry.mk (known0 ++ lics), Done tt).
Proof.
  revert known0. induction lics as [| lic rest IH]; intros known0 Hsort Hne.
  - cbn [licenses.RegisterAll]. now rewrite app_nil_r.
  - inversion Hne as [| ? ? Hlic Hrest]; subst.
    assert (licenses.Register (S (length (known0 ++ lic :: rest))) (registry.mk known0) lic
            = (registry.mk (known0 ++ [lic]), Done tt)) as Hreg.
    { unfold licenses.Register, registry.insert, registry.lookup. cbn [registry.known].
      destruct (Slug lic) as [| c sl] eqn:Eslug; [congruence |]. cbn [is_empty].
      rewrite <- Eslug. rewrite lookup_loop_above.
      - cbn [bind]. rewrite Z.leb_refl.
        destruct (Z.leb_spec 0 (Z.of_nat (length known0))); [| lia]. cbn [andb].
        now rewrite Nat2Z.id, splice_end.
      - apply Forall_forall. intros cur Hcur. rewrite Eslug.
        rewrite <- Eslug. now apply (sorted_app_before known0 lic rest).
      - lia.
      - rewrite length_app. cbn [length]. lia. }
    cbn [licenses.RegisterAll]. rewrite Hreg.
    replace (known0 ++ lic :: rest) with ((known0 ++ [lic]) ++ rest) in *
      by now rewrite <- app_assoc.
    now apply IH.
Qed.

(** Whatever the order of the calls, when all of them return the
    registry lists the licenses in the order of the calls, and that
    order is strictly increasing. *)
Lemma lookup_loop_false_last fuel known slug i r :
  0 <= i <= Z.of_nat (length known) ->
  (i = 0 \/ exists cur, index known (i - 1) = Some cur
                       /\ string_lt (Slug cur) slug = true) ->
  registry.lookup_loop fuel known slug i (Z.of_nat (length known) - 1) = Done (r, false) ->
  known = [] \/ exists cur, last known = Some cur /\ string_lt (Slug cur) slug = true.
Proof.
  revert i. induction fuel as [| fuel IH]; intros i Hi Hinv; [discriminate |].
  rewrite lookup_loop_step.
  destruct (Z.leb_spec i (Z.of_nat (length known) - 1)) as [Hij | Hij].
  - pose proof (midpoint_bounds i _ (proj1 Hi) Hij) as Hm.
    destruct (index known ((i + (Z.of_nat (length known) - 1)) ÷ 2)) as [cur |] eqn:Ecur;
      [| discriminate].
    destruct (string_eq slug (Slug cur)) eqn:Eeq; [discriminate |].
    destruct (string_lt slug (Slug cur)) eqn:Elt.
    + intros H. exfalso. revert H.
      apply (lookup_loop_no_false fuel known slug i _ cur); (lia || assumption).
    + apply IH; [lia |]. right. exists cur.
      replace ((i + (Z.of_nat (length known) - 1)) ÷ 2 + 1 - 1)
        with ((i + (Z.of_nat (length known) - 1)) ÷ 2) by lia.
      split; [exact Ecur |]. apply string_lt_total; [| exact Elt].
      apply string_eq_false in Eeq. congruence.
  - intros _. destruct Hinv as [-> | (cur & Hcur & Hlt)].
    + left. destruct known; [reflexivity | cbn [length] in Hij; lia].
    + right. exists cur. split; [| exact Hlt].
      unfold index in Hcur. destruct (_ && _); [| discriminate].
      rewrite last_lookup. rewrite <- Hcur. f_equal. lia.
Qed.

Lemma StronglySorted_last (l : list License) z x :
  StronglySorted slug_lt l -> last l = Some z -> slug_lt z x ->
  Forall (fun y => slug_lt y x) l.
Proof.
  induction 1 as [| y l Hl IH Hy]; intros Hz Hzx; [constructor |].
  destruct l as [| y2 l'].
  - injection Hz as ->. now repeat constructor.
  - constructor; [| now apply IH].
    rewrite Forall_forall in Hy.
    assert (z ∈ y2 :: l') as Hin.
    { change (last (y2 :: l') = Some z) in Hz.
      apply last_Some in Hz as [k Hk]. rewrite Hk.
      apply elem_of_app. right. left. }
    unfold slug_lt in *.
    apply (string_lt_trans _ (Slug z)); [apply Hy; exact Hin | exact Hzx].
Qed.

Lemma Register_Done_sorted fuel g lic g' :
  StronglySorted slug_lt (registry.known g) ->
  licenses.Register fuel g lic = (g', Done tt) ->
  StronglySorted slug_lt (registry.known g').
Proof.
  intros Hsort Hreg. rewrite (Register_Done_appends _ _ _ _ Hreg).
  apply StronglySorted_snoc; [exact Hsort |].
  revert Hreg. unfold licenses.Register, registry.insert, registry.lookup.
  destruct (is_empty (Slug lic)); [discriminate |].
  destruct (registry.lookup_loop fuel (registry.known g) (Slug lic) 0
              (Z.of_nat (length (registry.known g)) - 1)) as [[i ok] | |] eqn:E;
    cbn [bind]; try discriminate.
  destruct ok; [discriminate |]. intros _.
  apply lookup_loop_false_last in E; [| lia | now left].
  destruct E as [-> | (cur & Hlast & Hlt)]; [constructor |].
  now apply (StronglySorted_last _ cur).
Qed.

Lemma RegisterAll_Done_sorted fuel lics g g' :
  StronglySorted slug_lt (registry.known g) ->
  licenses.RegisterAll fuel g lics = (g', Done tt) ->
  registry.known g' = registry.known g ++ lics
  /\ StronglySorted slug_lt (registry.known g').
Proof.
  revert g. induction lics as [| lic rest IH]; intros g Hsort; cbn [licenses.RegisterAll].
  - intros [= <-]. now rewrite app_nil_r.
  - destruct (licenses.Register fuel g lic) as [g1 [[] | msg |]] eqn:Hreg;
      try discriminate.
    intros Hall. apply IH in Hall as [Hk Hs].
    + split; [| exact Hs]. rewrite Hk, (Register_Done_appends _ _ _ _ Hreg).
      now rewrite <- app_assoc.
    + eapply Register_Done_sorted; eauto.
Qed.

(** C4 at the failing input: with the three entries registered in slug
    order, [Lookup] of the unregistered slug "apache2" does not return,
    whatever fuel its loop is given. *)
Theorem C4_Lookup_unregistered_diverges :
  licenses.RegisterAll 3 licenses.global0 registered
  = (registry.mk registered, Done tt)
  /\ forall fuel,
       licenses.Lookup fuel (registry.mk registered) (str "apache2") = OutOfFuel.
Proof.
  split; [vm_compute; reflexivity |].
  intros fuel. unfold licenses.Lookup, registry.fetch, registry.lookup.
  cbn [registry.known].
  assert (registry.lookup_loop fuel registered (str "apache2") 0 0 = OutOfFuel) as H0.
  { apply (lookup_loop_stuck registered (str "apache2") 0 bsd3c);
      vm_compute; reflexivity. }
  destruct fuel as [| [| fuel]]; [reflexivity | reflexivity |].
  change (Z.of_nat (length registered) - 1) with 2.
  rewrite lookup_loop_step.
  match goal with
  | |- bind ?x _ = _ => assert (x = OutOfFuel) as ->; [| reflexivity]
  end.
  change (0 <=? 2) with true. cbn iota.
  change ((0 + 2) ÷ 2) with 1.
  assert (index registered 1 = Some freebsd) as -> by reflexivity.
  assert (string_eq (str "apache2") (Slug freebsd) = false) as -> by (vm_compute; reflexivity).
  assert (string_lt (str "apache2") (Slug freebsd) = true) as -> by (vm_compute; reflexivity).
  rewrite lookup_loop_step.
  change (0 <=? 1) with true. cbn iota.
  change ((0 + 1) ÷ 2) with 0.
  assert (index registered 0 = Some bsd3c) as -> by reflexivity.
  assert (string_eq (str "apache2") (Slug bsd3c) = false) as -> by (vm_compute; reflexivity).
  assert (string_lt (str "apache2") (Slug bsd3c) = true) as -> by (vm_compute; reflexivity).
  apply (lookup_loop_stuck registered (str "apache2") 0 bsd3c); vm_compute; reflexivity.
Qed.

(** The nested append of [insert] at an interior index: the entry that
    was at the index is lost and the new one is stored twice.  [lookup]
    never hands [insert] such an index ([lookup_loop_false_end]), so
    this stays hidden behind the loop above. *)
Example splice_interior :
  map Slug (registry.splice [bsd3c; mit_expat] 1 freebsd)
  = [str "bsd3c"; str "freebsd"; str "freebsd"].
Proof. reflexivity. Qed.

(** C9 at the failing input: registering mit-expat and then bsd3c, two
    distinct non-empty slugs in decreasing order.  The second call does
    not return, whatever fuel its loop is given, and bsd3c never enters
    the registry. *)
Theorem C9_Register_decreasing_diverges fuel :
  snd (licenses.RegisterAll fuel licenses.global0 [mit_expat; bsd3c]) = OutOfFuel
  /\ bsd3c ∉ registry.known
               (fst (licenses.RegisterAll fuel licenses.global0 [mit_expat; bsd3c])).
Proof.
  destruct fuel as [| fuel].
  - split; [reflexivity |]. cbn. apply not_elem_of_nil.
  - assert (licenses.Register (S fuel) licenses.global0 mit_expat
            = (registry.mk [mit_expat], Done tt)) as H1 by reflexivity.
    assert (licenses.Register (S fuel) (registry.mk [mit_expat]) bsd3c
            = (registry.mk [mit_expat], OutOfFuel)) as H2.
    { unfold licenses.Register, registry.insert, registry.lookup.
      cbn [registry.known].
      change (Z.of_nat (length [mit_expat]) - 1) with 0.
      rewrite (lookup_loop_stuck [mit_expat] (Slug bsd3c) 0 mit_expat)
        by (vm_compute; reflexivity).
      reflexivity. }
    cbn [licenses.RegisterAll]. rewrite H1, H2. cbn [fst snd registry.known].
    split; [reflexivity |].
    intros Hin. apply list_elem_of_singleton in Hin. discriminate Hin.
Qed.

(** ** Failing annotation (C1) *)

Lemma CreateTemp_Ok abs rnds w w1 tmp :
  CreateTemp abs rnds w = (w1, Ok tmp) ->
  fs w !! tmp = None
  /\ w1 = mkWorld (<[tmp := []]> (fs w)) (log w ++ [ECreate tmp]).
Proof.
  induction rnds as [| rnd rest IH]; cbn [CreateTemp]; [discriminate |].
  destruct (fs w !! tempName abs rnd) eqn:E; [exact IH |].
  intros [= <- <-]. split; [exact E | reflexivity].
Qed.

Lemma CreateTemp_Err abs rnds w w1 msg :
  CreateTemp abs rnds w = (w1, Err msg) -> w1 = w.
Proof.
  induction rnds as [| rnd rest IH]; cbn [CreateTemp]; [congruence |].
  destruct (fs w !! tempName abs rnd); [exact IH | discriminate].
Qed.

Lemma new_events_app w evs m :
  new_events w (mkWorld m (log w ++ evs)) = evs.
Proof. unfold new_events. cbn [log]. apply drop_app_length. Qed.

Lemma new_events_same w : new_events w w = [].
Proof. unfold new_events. apply drop_all. Qed.

Lemma remove_fresh (m : gmap gostring gostring) tmp x :
  m !! tmp = None -> delete tmp (<[tmp := x]> m) = m.
Proof. intros H. rewrite delete_insert_eq. now apply delete_id. Qed.

Lemma CreateTemp_name abs rnds w w1 tmp :
  CreateTemp abs rnds w = (w1, Ok tmp) -> exists rnd, tmp = tempName abs rnd.
Proof.
  induction rnds as [| rnd rest IH]; cbn [CreateTemp]; [discriminate |].
  destruct (fs w !! tempName abs rnd); [exact IH |].
  intros [= _ <-]. now exists rnd.
Qed.

Lemma tempName_neq abs rnd : tempName abs rnd <> abs.
Proof.
  unfold tempName. intros H. apply (f_equal length) in H.
  rewrite !length_app in H. cbn [str list_ascii_of_string length] in H. lia.
Qed.

Lemma no_rename_in (evs : list event) :
  forallb (fun ev => negb (is_rename ev)) evs = true ->
  forall ev, ev ∈ evs -> is_rename ev = false.
Proof.
  intros H ev Hev. rewrite forallb_forall in H.
  apply list_elem_of_In, H in Hev. now destruct (is_rename ev).
Qed.

(** The end of a call that got its temporary file and returns an error:
    the file is written, closed and handed to [os.Remove]. *)
Ltac error_path Hfresh Hne Erm :=
  unfold Remove, emit, content; rewrite ?Erm;
  cbn [fs log fst snd to_result default];
  rewrite ?lookup_insert_eq, ?insert_insert_eq;
  cbn [fs log fst snd to_result default];
  rewrite ?lookup_insert_eq, ?insert_insert_eq;
  cbn [fs log fst snd];
  rewrite <- ?app_assoc;
  rewrite ?new_events_app;
  first
    [ discriminate
    | intros _; split; [apply no_rename_in; reflexivity |];
      right; eexists; split; [exact Hfresh |];
      split; [exact Hne |]; split; [reflexivity |];
      first
        [ left; split; [reflexivity | now apply remove_fresh]
        | right; split; [reflexivity | eexists; reflexivity] ] ].

(** What a call that returns an error leaves behind.  It renamed
    nothing.  Either it created no file and the file system is as it
    was, or it created one temporary file under a name that was free and
    is not the name of [f]: when [os.Remove] works the file system is
    again as it was, and when [os.Remove] fails it is the old one with
    the temporary file added. *)
Lemma EditFile_error_world e lic f c ind w msg :
  snd (EditFile e lic f c ind w) = Err msg ->
  (forall ev, ev ∈ new_events w (fst (EditFile e lic f c ind w)) ->
              is_rename ev = false)
  /\ ((fs (fst (EditFile e lic f c ind w)) = fs w
       /\ created (new_events w (fst (EditFile e lic f c ind w))) = [])
      \/ exists tmp,
           fs w !! tmp = None /\ tmp <> fname f
           /\ created (new_events w (fst (EditFile e lic f c ind w))) = [tmp]
           /\ ((remove_fails e = false
                /\ fs (fst (EditFile e lic f c ind w)) = fs w)
               \/ (remove_fails e = true
                   /\ exists data,
                        fs (fst (EditFile e lic f c ind w))
                        = <[tmp := data]> (fs w)))).
Proof.
  unfold EditFile. destruct lic as [lic |]; [| discriminate].
  destruct (is_empty (PerFile lic)); [discriminate |].
  assert ((forall ev, ev ∈ new_events w w -> is_rename ev = false)
          /\ ((fs w = fs w /\ created (new_events w w) = [])
              \/ exists tmp,
                   fs w !! tmp = None /\ tmp <> fname f
                   /\ created (new_events w w) = [tmp]
                   /\ ((remove_fails e = false /\ fs w = fs w)
                       \/ (remove_fails e = true
                           /\ exists data, fs w = <[tmp := data]> (fs w)))))
    as Hearly.
  { rewrite new_events_same. split; [| left; split; reflexivity].
    intros ev Hev. now apply elem_of_nil in Hev. }
  unfold Abs. destruct (abs_fails e); [intros _; exact Hearly |].
  unfold Seek. destruct (seek_fails e); [intros _; exact Hearly |].
  destruct (newTemplate c _) as [header | m0].
  2:{ intros _. unfold emit. cbn [fst snd fs log]. rewrite new_events_app.
      split; [apply no_rename_in; reflexivity | left; split; reflexivity]. }
  set (w1 := emit (ESeek (fname f)) w).
  destruct (CreateTemp (fname f) (temp_names e) w1) as [w2 [tmp | m0]] eqn:Etmp.
  2:{ intros _. apply CreateTemp_Err in Etmp. subst w2 w1.
      unfold emit. cbn [fst snd fs log]. rewrite new_events_app.
      split; [apply no_rename_in; reflexivity | left; split; reflexivity]. }
  assert (tmp <> fname f) as Hne.
  { destruct (CreateTemp_name _ _ _ _ _ Etmp) as [rnd ->]. apply tempName_neq. }
  apply CreateTemp_Ok in Etmp as [Hfresh ->]. subst w1.
  unfold emit in *. cbn [fs log fname offset] in *.
  unfold Write, Sync, Close, Rename.
  destruct (remove_fails e) eqn:Erm.
  - destruct (write_fails e) as [k1 |].
    + destruct (close_fails e); error_path Hfresh Hne Erm.
    + destruct (copy_fails e) as [k2 |].
      * destruct (close_fails e); error_path Hfresh Hne Erm.
      * destruct (sync_fails e).
        -- destruct (close_fails e); error_path Hfresh Hne Erm.
        -- destruct (close_fails e); [error_path Hfresh Hne Erm |].
           destruct (rename_fails e); error_path Hfresh Hne Erm.
  - destruct (write_fails e) as [k1 |].
    + destruct (close_fails e); error_path Hfresh Hne Erm.
    + destruct (copy_fails e) as [k2 |].
      * destruct (close_fails e); error_path Hfresh Hne Erm.
      * destruct (sync_fails e).
        -- destruct (close_fails e); error_path Hfresh Hne Erm.
        -- destruct (close_fails e); [error_path Hfresh Hne Erm |].
           destruct (rename_fails e); error_path Hfresh Hne Erm.
Qed.





(** The same call when nothing fails: the header, one blank line and
    the old content are renamed over the file, and the temporary name is
    free again. *)
Example EditFile_success :
  let e := mkEnv false false [str "1"; str "2"] None None false false false false in
  let f := mkFile (str "/src/a.go") 3 in
  let c := mkConfig (str "Ann") [] (fun _ => str "2018") in
  let w := mkWorld {[ str "/src/a.go" := str "package a" ]} [] in
  let r := EditFile e (Some mit_expat) f c (Some slash_rule) w in
  snd r = Ok tt
  /\ fs (fst r) !! str "/src/a.go"
     = Some (str "// Copyright (C) 2018 Ann. All Rights Reserved." ++ [LF; LF]
             ++ str "package a")
  /\ fs (fst r) !! str "/src/a.go~1" = None
  /\ log (fst r)
     = [ESeek (str "/src/a.go"); ECreate (str "/src/a.go~1");
        EWrite (str "/src/a.go~1")
               (str "// Copyright (C) 2018 Ann. All Rights Reserved." ++ [LF; LF]);
        EWrite (str "/src/a.go~1") (str "package a");
        ESync (str "/src/a.go~1"); EClose (str "/src/a.go~1");
        ERename (str "/src/a.go~1") (str "/src/a.go")].
Proof. cbv zeta. repeat split; vm_compute; reflexivity. Qed.

(** ** The end of the standalone text (C5) *)

Lemma Execute_app c ns1 ns2 :
  Execute c (ns1 ++ ns2) = Execute c ns1 ++ Execute c ns2.
Proof. unfold Execute. now rewrite map_app, concat_app. Qed.

Lemma suffix_short_app (l pre t : gostring) :
  (length l <= length t)%nat -> l `suffix_of` pre ++ t -> l `suffix_of` t.
Proof.
  intros Hlen [k Hk].
  assert (length pre <= length k)%nat as Hpk.
  { apply (f_equal length) in Hk. rewrite !length_app in Hk. lia. }
  exists (drop (length pre) k).
  apply (f_equal (drop (length pre))) in Hk.
  rewrite drop_app_length in Hk. rewrite Hk.
  rewrite drop_app_le by exact Hpk. reflexivity.
Qed.

Lemma one_trailing_newline_app pre t :
  (2 <= length t)%nat -> one_trailing_newline t -> one_trailing_newline (pre ++ t).
Proof.
  intros Hlen [H1 H2]. split.
  - now apply suffix_app_r.
  - intros H. apply H2. now apply (suffix_short_app _ pre).
Qed.

Lemma WriteText_Execute lic c ns :
  Parse (template_text lic) = Some ns ->
  WriteText (Some lic) c = Ok (Execute c ns).
Proof.
  intros H. unfold WriteText, newTemplate. fold (template_text lic). now rewrite H.
Qed.

(** A template that ends in literal text ending in a single line feed
    renders, in every context, to text with one trailing newline. *)
Lemma ends_in_text c init t :
  (2 <= length t)%nat -> one_trailing_newline t ->
  one_trailing_newline (Execute c (init ++ [NText t])).
Proof.
  intros Hlen Ht. rewrite Execute_app.
  unfold Execute at 2. cbn [map concat exec]. rewrite app_nil_r.
  now apply one_trailing_newline_app.
Qed.

Ltac split_last_node :=
  match goal with
  | |- context [Execute ?c ?l] =>
      let init := eval vm_compute in (removelast l) in
      let lst := eval vm_compute in (drop (length l - 1) l) in
      change l with (init ++ lst)
  end.

Ltac decide_suffix :=
  match goal with
  | |- ~ ?P => apply (bool_decide_unpack (~ P)); vm_compute; exact I
  | |- ?P => apply (bool_decide_unpack P); vm_compute; exact I
  end.

Lemma WriteText_one_newline lic c :
  lic = mit_expat \/ lic = bsd3c ->
  exists out, WriteText (Some lic) c = Ok out /\ one_trailing_newline out.
Proof.
  intros [-> | ->].
  - destruct (Parse (template_text mit_expat)) as [ns |] eqn:E;
      [| vm_compute in E; discriminate].
    exists (Execute c ns). split; [now apply WriteText_Execute |].
    vm_compute in E. injection E as <-.
    split_last_node. apply ends_in_text; [cbn; lia |].
    split; decide_suffix.
  - destruct (Parse (template_text bsd3c)) as [ns |] eqn:E;
      [| vm_compute in E; discriminate].
    exists (Execute c ns). split; [now apply WriteText_Execute |].
    vm_compute in E. injection E as <-.
    split_last_node. apply ends_in_text; [cbn; lia |].
    split; decide_suffix.
Qed.

Ltac split_last_nodes n :=
  match goal with
  | |- context [Execute ?c ?l] =>
      let init := eval vm_compute in (take (length l - n) l) in
      let lst := eval vm_compute in (drop (length l - n) l) in
      change l with (init ++ lst)
  end.

Lemma not_suffix_app (l pre t : gostring) :
  (length l <= length t)%nat -> ~ l `suffix_of` t -> ~ l `suffix_of` pre ++ t.
Proof. intros Hlen Hn H. apply Hn. now apply (suffix_short_app _ pre). Qed.

(** The text of freebsd ends with a conditional block on a line of its
    own: whether the block is rendered or skipped, the rendered text
    ends with two line feeds, and not with three. *)
Lemma WriteText_freebsd c :
  exists out,
    WriteText (Some freebsd) c = Ok out
    /\ [LF; LF] `suffix_of` out /\ ~ [LF; LF; LF] `suffix_of` out.
Proof.
  destruct (Parse (template_text freebsd)) as [ns |] eqn:E;
    [| vm_compute in E; discriminate].
  exists (Execute c ns). split; [now apply WriteText_Execute |].
  vm_compute in E. injection E as <-.
  split_last_nodes 3%nat. rewrite Execute_app.
  match goal with |- context [Execute c ?l ++ _] => generalize (Execute c l) end.
  intros pre. unfold Execute. cbn [map concat exec get].
  destruct (is_empty (Project c)).
  - split.
    + apply suffix_app_r. decide_suffix.
    + apply not_suffix_app; [apply Nat.leb_le; vm_compute; reflexivity |].
      decide_suffix.
  - assert (forall t1 a p b n : gostring,
              t1 ++ (a ++ p ++ b ++ []) ++ n ++ [] = (t1 ++ a ++ p) ++ (b ++ n))
      as Heq by (intros; rewrite !app_nil_r, <- !app_assoc; reflexivity).
    rewrite Heq, app_assoc. split.
    + apply suffix_app_r. decide_suffix.
    + apply not_suffix_app; [apply Nat.leb_le; vm_compute; reflexivity |].
      decide_suffix.
Qed.

(** C5, as stated: every registered entry would render, in every
    context, to text with exactly one trailing newline.  The freebsd
    entry does not. *)
Lemma C5_WriteText_counterexample :
  ~ (forall lic c out,
       lic ∈ registered ->
       WriteText (Some lic) c = Ok out -> one_trailing_newline out).
Proof.
  intros H.
  pose (c := mkConfig (str "Ann") [] (fun _ => str "2018")).
  destruct (WriteText_freebsd c) as (out & Hout & Hsuf & _).
  assert (freebsd ∈ registered) as Hin.
  { unfold registered. apply elem_of_cons. right. apply elem_of_cons. left. reflexivity. }
  destruct (H freebsd c out Hin Hout) as [_ Hnot]. exact (Hnot Hsuf).
Qed.

(** C5, amended: for the registered entries mit-expat and bsd3c, whose
    text ends in literal text, [WriteText] renders in every context to
    text that ends with exactly one newline and no blank line before it;
    for freebsd, whose text ends with a conditional project block, the
    rendered text ends in every context with exactly two newlines, that
    is with one trailing blank line and no more. *)
Theorem C5_WriteText_trailing_newline c :
  (exists out, WriteText (Some mit_expat) c = Ok out /\ one_trailing_newline out)
  /\ (exists out, WriteText (Some bsd3c) c = Ok out /\ one_trailing_newline out)
  /\ (exists out, WriteText (Some freebsd) c = Ok out
                  /\ [LF; LF] `suffix_of` out
                  /\ ~ [LF; LF; LF] `suffix_of` out).
Proof.
  split; [apply WriteText_one_newline; now left |].
  split; [apply WriteText_one_newline; now right |].
  apply WriteText_freebsd.
Qed.

(** ** Space runes and [leftSpace] *)

Lemma byteval_range c : 0 <= byteval c < 256.
Proof.
  unfold byteval. pose proof (N_ascii_bounded c). lia.
Qed.

Lemma asc_byteval c : asc (byteval c) = c.
Proof. unfold asc, byteval. rewrite N2Z.id. apply ascii_N_embedding. Qed.

Lemma asc_byteval_plus c k : asc (k + (byteval c - k)) = c.
Proof. replace (k + (byteval c - k)) with (byteval c) by lia. apply asc_byteval. Qed.

Ltac case_tests :=
  repeat (match goal with
          | |- context [?a <=? ?b] => destruct (Z.leb_spec a b)
          | |- context [?a <? ?b] => destruct (Z.ltb_spec a b)
          | |- context [?a =? ?b] => destruct (Z.eqb_spec a b)
          end; cbn [andb orb negb]; try lia).

Lemma IsSpace_large r : 0x3000 < r -> IsSpace r = false.
Proof. intros H. unfold IsSpace, between. case_tests; reflexivity. Qed.

Lemma IsSpace_RuneError : IsSpace RuneError = false.
Proof. reflexivity. Qed.

Lemma decode_space s r n :
  decodeRune s = (r, n) -> IsSpace r = true ->
  space_head s n /\ encodeRune r = take n s.
Proof.
  destruct s as [| c0 s1]; cbn [decodeRune]; [intros [= <- <-]; discriminate |].
  pose proof (byteval_range c0) as R0.
  destruct (Z.ltb_spec (byteval c0) 0x80).
  { intros [= <- <-] Hsp. split; [now constructor |].
    unfold encodeRune, between. case_tests; cbn [take];
      now rewrite take_0, asc_byteval. }
  destruct (Z.ltb_spec (byteval c0) 0xC2); [intros [= <- <-]; discriminate |].
  destruct (Z.ltb_spec (byteval c0) 0xE0).
  { destruct s1 as [| c1 s2]; [intros [= <- <-]; discriminate |].
    pose proof (byteval_range c1) as R1. unfold between.
    destruct (Z.leb_spec 0x80 (byteval c1)); cbn [andb];
      [| intros [= <- <-]; discriminate].
    destruct (Z.leb_spec (byteval c1) 0xBF); [| intros [= <- <-]; discriminate].
    intros [= <- <-] Hsp. split.
    - constructor; [lia | lia |]. intros r'. cbn [decodeRune]. unfold between.
      case_tests; reflexivity.
    - set (r := (byteval c0 - 192) * 64 + (byteval c1 - 128)).
      assert (r / 64 = byteval c0 - 192) as Hd
          by (symmetry; apply (Z.div_unique r 64 _ (byteval c1 - 128)); subst r; lia).
      assert (r mod 64 = byteval c1 - 128) as Hm
          by (symmetry; apply (Z.mod_unique r 64 (byteval c0 - 192)); subst r; lia).
      unfold encodeRune, between. case_tests; cbn [take];
        rewrite take_0, Hd, Hm, !asc_byteval_plus; reflexivity. }
  destruct (Z.ltb_spec (byteval c0) 0xF0).
  { destruct s1 as [| c1 [| c2 s3]]; try (intros [= <- <-]; discriminate).
    pose proof (byteval_range c1) as R1. pose proof (byteval_range c2) as R2.
    unfold between.
    set (lo := if byteval c0 =? 224 then 160 else 128).
    set (hi := if byteval c0 =? 237 then 159 else 191).
    assert (128 <= lo <= 160) as Rlo by (subst lo; case_tests).
    assert (159 <= hi <= 191) as Rhi by (subst hi; case_tests).
    destruct (Z.leb_spec lo (byteval c1)) as [Hlo |]; cbn [andb];
      [| intros [= <- <-]; discriminate].
    destruct (Z.leb_spec (byteval c1) hi) as [Hhi |]; [| intros [= <- <-]; discriminate].
    destruct (Z.leb_spec 0x80 (byteval c2)); cbn [andb];
      [| intros [= <- <-]; discriminate].
    destruct (Z.leb_spec (byteval c2) 0xBF); [| intros [= <- <-]; discriminate].
    intros [= <- <-] Hsp. split.
    - constructor; [lia | lia | lia |]. intros r'. cbn [decodeRune]. unfold between.
      fold lo hi. case_tests; reflexivity.
    - set (r := (byteval c0 - 224) * 4096 + (byteval c1 - 128) * 64 + (byteval c2 - 128)) in *.
      assert (0x800 <= r <= 0xFFFF) as Rr.
      { subst r lo hi. revert Hlo Hhi. case_tests. }
      assert (~ (0xD800 <= r <= 0xDFFF)) as Rs.
      { intros Hs. unfold IsSpace, between in Hsp. revert Hsp. case_tests; discriminate. }
      assert (r / 4096 = byteval c0 - 224) as Hd1
          by (symmetry;
              apply (Z.div_unique r 4096 _ ((byteval c1 - 128) * 64 + (byteval c2 - 128)));
              subst r; lia).
      assert (r / 64 = (byteval c0 - 224) * 64 + (byteval c1 - 128)) as Hd2
          by (symmetry; apply (Z.div_unique r 64 _ (byteval c2 - 128)); subst r; lia).
      assert ((r / 64) mod 64 = byteval c1 - 128) as Hm2
          by (rewrite Hd2; symmetry;
              apply (Z.mod_unique _ 64 (byteval c0 - 224)); lia).
      assert (r mod 64 = byteval c2 - 128) as Hm
          by (symmetry;
              apply (Z.mod_unique r 64 ((byteval c0 - 224) * 64 + (byteval c1 - 128)));
              subst r; lia).
      unfold encodeRune, between. case_tests; unfold encode3; cbn [take];
        rewrite take_0, Hd1, Hm2, Hm, !asc_byteval_plus; reflexivity. }
  destruct (Z.ltb_spec (byteval c0) 0xF5); [| intros [= <- <-]; discriminate].
  destruct s1 as [| c1 [| c2 [| c3 s4]]]; try (intros [= <- <-]; discriminate).
  pose proof (byteval_range c1) as R1. pose proof (byteval_range c2) as R2.
  pose proof (byteval_range c3) as R3.
  unfold between.
  set (lo := if byteval c0 =? 240 then 144 else 128).
  set (hi := if byteval c0 =? 244 then 143 else 191).
  destruct (Z.leb_spec lo (byteval c1)) as [Hlo |]; cbn [andb];
    [| intros [= <- <-]; discriminate].
  destruct (Z.leb_spec (byteval c1) hi); [| intros [= <- <-]; discriminate].
  destruct (Z.leb_spec 0x80 (byteval c2)); cbn [andb];
    [| intros [= <- <-]; discriminate].
  destruct (Z.leb_spec (byteval c2) 0xBF); [| intros [= <- <-]; discriminate].
  destruct (Z.leb_spec 0x80 (byteval c3)); cbn [andb];
    [| intros [= <- <-]; discriminate].
  destruct (Z.leb_spec (byteval c3) 0xBF); [| intros [= <- <-]; discriminate].
  intros [= <- <-] Hsp. rewrite IsSpace_large in Hsp; [discriminate |].
  subst lo. revert Hlo. case_tests.
Qed.

Lemma space_head_width s n : space_head s n -> (1 <= n <= length s)%nat.
Proof. destruct 1; cbn [length]; lia. Qed.

Lemma spaceWidth_space_head s :
  spaceWidth s <> 0%nat -> space_head s (spaceWidth s).
Proof.
  unfold spaceWidth. destruct (decodeRune s) as [r n] eqn:E.
  destruct (IsSpace r) eqn:Hsp; [| congruence].
  intros _. now apply (decode_space s r n).
Qed.

Lemma leftSpace_loop_nil k : leftSpace_loop k [] = [].
Proof. now destruct k. Qed.

Lemma leftSpace_loop_step k s :
  s <> [] ->
  leftSpace_loop (S k) s =
  match spaceWidth s with
  | O => []
  | S n => take (S n) s ++ leftSpace_loop k (drop (S n) s)
  end.
Proof.
  intros Hs. destruct s as [| c s']; [congruence |].
  cbn [leftSpace_loop]. unfold spaceWidth.
  destruct (decodeRune (c :: s')) as [r n] eqn:E.
  destruct (IsSpace r) eqn:Hsp; [| reflexivity].
  destruct (decode_space _ _ _ E Hsp) as [Hh ->].
  apply space_head_width in Hh. destruct n; [lia | reflexivity].
Qed.

Lemma leftSpace_loop_fuel k k' s :
  (length s <= k)%nat -> (length s <= k')%nat ->
  leftSpace_loop k s = leftSpace_loop k' s.
Proof.
  revert k' s. induction k as [| k IH]; intros k' s Hk Hk'.
  - destruct s; [| cbn in Hk; lia]. now rewrite !leftSpace_loop_nil.
  - destruct s as [| c s']; [now rewrite !leftSpace_loop_nil |].
    destruct k' as [| k']; [cbn in Hk'; lia |].
    rewrite !leftSpace_loop_step by discriminate.
    destruct (spaceWidth (c :: s')) as [| n] eqn:En; [reflexivity |].
    f_equal. apply IH; rewrite length_drop; cbn [length] in *; lia.
Qed.

Lemma leftSpace_unfold s :
  leftSpace s =
  match spaceWidth s with
  | O => []
  | S n => take (S n) s ++ leftSpace (drop (S n) s)
  end.
Proof.
  unfold leftSpace. destruct s as [| c s']; [reflexivity |].
  cbn [length]. rewrite leftSpace_loop_step by discriminate.
  destruct (spaceWidth (c :: s')) as [| n]; [reflexivity |].
  f_equal. apply leftSpace_loop_fuel; rewrite ?length_drop; cbn [length]; lia.
Qed.

(** Induction on the length of a string *)
Lemma length_ind (P : gostring -> Prop) :
  (forall s, (forall t, (length t < length s)%nat -> P t) -> P s) ->
  forall s, P s.
Proof.
  intros Hstep s. remember (length s) as n eqn:Hn. revert s Hn.
  induction n as [n IH] using lt_wf_ind. intros s ->.
  apply Hstep. intros t Ht. now apply (IH (length t)).
Qed.

(** [leftSpace s] is a prefix of [s], and what follows it does not start
    with a space rune. *)
Lemma leftSpace_split s :
  s = leftSpace s ++ drop (length (leftSpace s)) s.
Proof.
  induction s as [s IH] using length_ind.
  rewrite leftSpace_unfold.
  destruct (spaceWidth s) as [| n] eqn:En; [reflexivity |].
  assert (space_head s (S n)) as Hh by (rewrite <- En; apply spaceWidth_space_head; lia).
  apply space_head_width in Hh.
  rewrite length_app, length_take, Nat.min_l by lia.
  rewrite <- drop_drop, <- app_assoc, <- IH by (rewrite length_drop; lia).
  now rewrite take_drop.
Qed.

Lemma leftSpace_rest s :
  leftSpace (drop (length (leftSpace s)) s) = [].
Proof.
  induction s as [s IH] using length_ind.
  rewrite (leftSpace_unfold s).
  destruct (spaceWidth s) as [| n] eqn:En.
  - cbn [length]. rewrite drop_0, leftSpace_unfold, En. reflexivity.
  - assert (space_head s (S n)) as Hh by (rewrite <- En; apply spaceWidth_space_head; lia).
    apply space_head_width in Hh.
    rewrite length_app, length_take, Nat.min_l by lia.
    rewrite <- drop_drop. apply IH. rewrite length_drop; lia.
Qed.

Lemma HasPrefix_true s p : HasPrefix s p = true <-> exists r, s = p ++ r.
Proof.
  revert s. induction p as [| a p IH]; intros s; cbn [HasPrefix].
  - split; [eauto | reflexivity].
  - destruct s as [| b s].
    + split; [discriminate | intros [r Hr]; discriminate].
    + rewrite andb_true_iff, IH. split.
      * intros [Hab [r ->]]. apply Ascii.eqb_eq in Hab as ->. now exists r.
      * intros [r [= -> ->]]. split; [apply Ascii.eqb_refl | now exists r].
Qed.

Lemma TrimPrefix_app p r : TrimPrefix (p ++ r) p = r.
Proof.
  unfold TrimPrefix.
  assert (HasPrefix (p ++ r) p = true) as -> by (apply HasPrefix_true; eauto).
  apply drop_app_length.
Qed.

Lemma TrimPrefix_not s p : (~ exists r, s = p ++ r) -> TrimPrefix s p = s.
Proof.
  intros H. unfold TrimPrefix.
  destruct (HasPrefix s p) eqn:E; [| reflexivity].
  apply HasPrefix_true in E. contradiction.
Qed.

Lemma TrimPrefix_nil s : TrimPrefix s [] = s.
Proof. reflexivity. Qed.

Lemma TrimPrefix_suffix s p : TrimPrefix s p `suffix_of` s.
Proof.
  unfold TrimPrefix. destruct (HasPrefix s p); [apply suffix_drop | reflexivity].
Qed.

(** ** Left justification (C6) *)

Lemma minSpace_acc acc ls m :
  minSpace acc ls = Some m ->
  (acc = Some m \/ exists l0, l0 ∈ ls /\ l0 <> [] /\ m = leftSpace l0)
  /\ (forall m0, acc = Some m0 -> (length m <= length m0)%nat)
  /\ (forall l, l ∈ ls -> l <> [] -> (length m <= length (leftSpace l))%nat).
Proof.
  revert acc. induction ls as [| line rest IH]; intros acc; cbn [minSpace].
  - intros ->. split; [now left |]. split.
    + now intros m0 [= ->].
    + intros l Hl. now apply elem_of_nil in Hl.
  - destruct (negb (is_empty line) &&
              match acc with
              | Some m0 => (length (leftSpace line) <? length m0)%nat
              | None => true
              end) eqn:Hc; intros Hm; apply IH in Hm as (Hfrom & Hle & Hall).
    + apply andb_true_iff in Hc as [Hne Hlt].
      assert (line <> []) as Hline by (now destruct line).
      specialize (Hle _ eq_refl). repeat split.
      * right. destruct Hfrom as [[= <-] | (l0 & Hin & Hl0 & ->)].
        -- exists line. split; [left | easy].
        -- exists l0. split; [now right | easy].
      * intros m0 ->. apply Nat.ltb_lt in Hlt. lia.
      * intros l Hl Hnb. apply elem_of_cons in Hl as [-> | Hl]; [exact Hle | now apply Hall].
    + repeat split.
      * destruct Hfrom as [-> | (l0 & Hin & Hl0 & ->)]; [now left |].
        right. exists l0. split; [now right | easy].
      * exact Hle.
      * intros l Hl Hnb. apply elem_of_cons in Hl as [-> | Hl]; [| now apply Hall].
        destruct line as [| c line]; [congruence |]. cbn [is_empty negb andb] in Hc.
        destruct acc as [m0 |]; [| discriminate].
        apply Nat.ltb_ge in Hc. specialize (Hle _ eq_refl). lia.
Qed.

Lemma minSpace_None acc ls :
  minSpace acc ls = None -> acc = None /\ Forall (fun l => l = []) ls.
Proof.
  revert acc. induction ls as [| line rest IH]; intros acc; cbn [minSpace].
  - intros ->. now split.
  - intros H. apply IH in H as [Hacc Hrest].
    destruct line as [| c line]; cbn [is_empty negb andb] in Hacc.
    + split; [exact Hacc | now constructor].
    + destruct acc; [destruct (_ <? _)%nat |]; discriminate.
Qed.

Lemma spaces_prefix (a b : gostring) :
  Forall (fun c => c = SP) a -> Forall (fun c => c = SP) b ->
  (length a <= length b)%nat -> exists r, b = a ++ r.
Proof.
  revert b. induction a as [| x a IH]; intros b Ha Hb Hlen; [now exists b |].
  destruct b as [| y b]; [cbn in Hlen; lia |].
  inversion Ha; inversion Hb; subst.
  destruct (IH b) as [r ->]; [assumption | assumption | cbn in Hlen; lia |].
  now exists r.
Qed.

Lemma lookup_map {A B} (f : A -> B) (l : list A) (i : nat) :
  map f l !! i = f <$> (l !! i).
Proof.
  revert i. induction l as [| x l IH]; intros [| i]; cbn; try reflexivity. apply IH.
Qed.

Lemma leftJust_lookup (t : block) m i l :
  minSpace None t = Some m -> t !! i = Some l ->
  leftJust t !! i = Some (TrimPrefix l m).
Proof.
  intros Hm Hl. unfold leftJust. rewrite Hm, lookup_map, Hl. reflexivity.
Qed.

Lemma leftJust_spec (t : block) m :
  minSpace None t = Some m ->
  (exists l0, l0 ∈ t /\ l0 <> [] /\ m = leftSpace l0)
  /\ (forall l, l ∈ t -> l <> [] -> (length m <= length (leftSpace l))%nat)
  /\ (forall i l, t !! i = Some l ->
        (forall r, l = m ++ r -> leftJust t !! i = Some r)
        /\ ((~ exists r, l = m ++ r) -> leftJust t !! i = Some l)
        /\ (l = [] -> leftJust t !! i = Some []))
  /\ (Forall (fun l => Forall (fun c => c = SP) (leftSpace l)) t ->
      forall i l, t !! i = Some l -> l <> [] ->
        exists r, l = m ++ r /\ leftJust t !! i = Some r).
Proof.
  intros Hm. pose proof (minSpace_acc _ _ _ Hm) as (Hfrom & _ & Hmin).
  destruct Hfrom as [[=] | Hfrom].
  split; [exact Hfrom |]. split; [exact Hmin |]. split.
  - intros i l Hl. rewrite (leftJust_lookup t m i l Hm Hl). repeat split.
    + intros r ->. now rewrite TrimPrefix_app.
    + intros Hno. now rewrite TrimPrefix_not.
    + intros ->. unfold TrimPrefix. destruct (HasPrefix [] m); [| reflexivity].
      now rewrite drop_nil.
  - intros Hsp i l Hl Hnb.
    destruct Hfrom as (l0 & Hin0 & Hl0 & ->).
    assert (l ∈ t) as Hin by (eapply list_elem_of_lookup_2; eauto).
    rewrite Forall_forall in Hsp.
    destruct (spaces_prefix (leftSpace l0) (leftSpace l)) as [r1 Hr1];
      [now apply Hsp | now apply Hsp | now apply Hmin |].
    exists (r1 ++ drop (length (leftSpace l)) l).
    assert (l = leftSpace l0 ++ r1 ++ drop (length (leftSpace l)) l) as Hsplit.
    { rewrite app_assoc, <- Hr1. apply leftSpace_split. }
    split; [exact Hsplit |].
    rewrite (leftJust_lookup t _ i l Hm Hl). f_equal.
    rewrite Hsplit at 1. apply TrimPrefix_app.
Qed.

(** C6, as stated: every non-blank line would lose exactly the minimum
    leading whitespace.  A line that starts with a no-break space
    (U+00A0) next to a line indented with one space keeps all of its
    bytes. *)
Lemma C6_leftJust_counterexample :
  ~ (forall T m i l l',
       minSpace None (expanded T) = Some m ->
       expanded T !! i = Some l -> l <> [] ->
       cleanup T !! i = Some l' ->
       l = m ++ l').
Proof.
  intros H.
  specialize (H (str " a" ++ [LF; asc 0xC2; asc 0xA0] ++ str "b")
                [SP] 1%nat
                ([asc 0xC2; asc 0xA0] ++ str "b")
                ([asc 0xC2; asc 0xA0] ++ str "b")).
  discriminate H; try reflexivity. discriminate.
Qed.

(** The first loop of [leftJust] replaces its candidate only by a
    strictly shorter one: what it returns is either the candidate it
    started with, or the leading whitespace of the first line that is
    not empty and whose leading whitespace is the shortest. *)
Lemma minSpace_first acc ls m :
  minSpace acc ls = Some m ->
  (forall l, l ∈ ls -> l <> [] -> (length m <= length (leftSpace l))%nat)
  /\ ((acc = Some m)
      \/ exists i l0,
           ls !! i = Some l0 /\ l0 <> [] /\ m = leftSpace l0
           /\ (forall m0, acc = Some m0 -> (length m < length m0)%nat)
           /\ (forall j l, (j < i)%nat -> ls !! j = Some l -> l <> [] ->
                 (length m < length (leftSpace l))%nat)).
Proof.
  intros Hm. split; [apply (minSpace_acc _ _ _ Hm) |].
  revert acc Hm. induction ls as [| line rest IH]; intros acc; cbn [minSpace].
  - intros ->. now left.
  - destruct (negb (is_empty line) &&
              match acc with
              | Some m0 => (length (leftSpace line) <? length m0)%nat
              | None => true
              end) eqn:Hc; intros Hm;
      destruct (IH _ Hm) as [Hacc | (i & l0 & Hi & Hl0 & -> & Hlt & Hbefore)].
    + (* the line becomes the candidate and stays it *)
      injection Hacc as <-.
      apply andb_true_iff in Hc as [Hne Hlt].
      right. exists 0%nat, line. split; [reflexivity |].
      split; [now destruct line |]. split; [reflexivity |].
      split; [| intros j l Hj; lia].
      intros m0 ->. now apply Nat.ltb_lt in Hlt.
    + (* a later line is strictly shorter *)
      apply andb_true_iff in Hc as [Hne Hc].
      specialize (Hlt _ eq_refl).
      right. exists (S i), l0. split; [exact Hi |].
      split; [exact Hl0 |]. split; [reflexivity |]. split.
      * intros m0 ->. apply Nat.ltb_lt in Hc. lia.
      * intros [| j] l Hj Hl Hnb.
        -- injection Hl as <-. exact Hlt.
        -- apply (Hbefore j l); [lia | exact Hl | exact Hnb].
    + now left.
    + right. exists (S i), l0. split; [exact Hi |].
      split; [exact Hl0 |]. split; [reflexivity |].
      split; [exact Hlt |].
      intros [| j] l Hj Hl Hnb.
      * injection Hl as <-.
        destruct line as [| c0 line']; [congruence |].
        cbn [is_empty negb andb] in Hc.
        destruct acc as [m0 |]; [| discriminate].
        apply Nat.ltb_ge in Hc. specialize (Hlt _ eq_refl). lia.
      * apply (Hbefore j l); [lia | exact Hl | exact Hnb].
Qed.

(** C6, amended: [leftJust] takes the leading whitespace of the first
    non-blank line whose leading whitespace is shortest in bytes: no
    non-blank line has a shorter one, and every non-blank line before
    it has a strictly longer one.  Every line that starts with these
    bytes loses exactly them, a line that does not start with them is
    left as it is, and blank lines stay empty.  When the leading
    whitespace of every line consists of space characters only, every
    non-blank line starts with these bytes and loses exactly them. *)
Theorem C6_leftJust T m :
  minSpace None (expanded T) = Some m ->
  (exists i l0,
     expanded T !! i = Some l0 /\ l0 <> [] /\ m = leftSpace l0
     /\ forall j l, (j < i)%nat -> expanded T !! j = Some l -> l <> [] ->
          (length m < length (leftSpace l))%nat)
  /\ (forall l, l ∈ expanded T -> l <> [] -> (length m <= length (leftSpace l))%nat)
  /\ (forall i l, expanded T !! i = Some l ->
        (forall r, l = m ++ r -> cleanup T !! i = Some r)
        /\ ((~ exists r, l = m ++ r) -> cleanup T !! i = Some l)
        /\ (l = [] -> cleanup T !! i = Some []))
  /\ (Forall (fun l => Forall (fun c => c = SP) (leftSpace l)) (expanded T) ->
      forall i l, expanded T !! i = Some l -> l <> [] ->
        exists r, l = m ++ r /\ cleanup T !! i = Some r).
Proof.
  intros Hm. split; [| apply (leftJust_spec _ _ Hm)].
  destruct (minSpace_first _ _ _ Hm)
    as [_ [[=] | (i & l0 & Hi & Hl0 & Hm0 & _ & Hbefore)]].
  exists i, l0. repeat split; assumption.
Qed.

(** The first line is indented by a space and the second by a vertical
    tab, which is as long: the space of the first line is taken, and
    the second line keeps its vertical tab. *)
Lemma C6_leftJust_witness :
  let T := str " a" ++ [LF; VT] ++ str "b" ++ [LF] ++ str "  c" in
  let m := [SP] in
  minSpace None (expanded T) = Some m /\
  ((exists i l0,
      expanded T !! i = Some l0 /\ l0 <> [] /\ m = leftSpace l0
      /\ forall j l, (j < i)%nat -> expanded T !! j = Some l -> l <> [] ->
           (length m < length (leftSpace l))%nat)
   /\ (forall l, l ∈ expanded T -> l <> [] -> (length m <= length (leftSpace l))%nat)
   /\ (forall i l, expanded T !! i = Some l ->
         (forall r, l = m ++ r -> cleanup T !! i = Some r)
         /\ ((~ exists r, l = m ++ r) -> cleanup T !! i = Some l)
         /\ (l = [] -> cleanup T !! i = Some []))
   /\ (Forall (fun l => Forall (fun c => c = SP) (leftSpace l)) (expanded T) ->
       forall i l, expanded T !! i = Some l -> l <> [] ->
         exists r, l = m ++ r /\ cleanup T !! i = Some r)).
Proof.
  split; [reflexivity | apply C6_leftJust; reflexivity].
Defined.

(** The lines of that text after normalisation. *)
Example leftJust_first_of_equals :
  cleanup (str " a" ++ [LF; VT] ++ str "b" ++ [LF] ++ str "  c")
  = [str "a"; VT :: str "b"; str " c"].
Proof. reflexivity. Qed.

(** ** Idempotence of normalisation (C3) *)

(** *** Lines *)

Lemma TrimRight_id l : trimmed l -> TrimRight l cutset = l.
Proof.
  induction l as [| c r IH]; intros Ht; [reflexivity |].
  cbn [TrimRight]. destruct r as [| d r'].
  - cbn [TrimRight]. destruct (mem c cutset) eqn:E; [| reflexivity].
    exfalso. now apply (Ht c).
  - rewrite IH; [reflexivity |]. intros x Hx. apply Ht. exact Hx.
Qed.

Lemma TrimRight_trimmed l : trimmed (TrimRight l cutset).
Proof.
  induction l as [| c r IH]; [intros x [=] |].
  cbn [TrimRight]. destruct (TrimRight r cutset) as [| d r'] eqn:E.
  - destruct (mem c cutset) eqn:Ec; [intros x [=] |].
    intros x [= <-]. unfold in_cutset. congruence.
  - intros x Hx. apply IH. exact Hx.
Qed.

Lemma TrimRight_split l :
  exists k, l = TrimRight l cutset ++ k /\ Forall in_cutset k.
Proof.
  induction l as [| c r (k & Hk & Hcut)]; [now exists [] |].
  cbn [TrimRight]. destruct (TrimRight r cutset) as [| d r'] eqn:E.
  - destruct (mem c cutset) eqn:Ec.
    + exists (c :: r). split; [reflexivity |]. cbn [app] in Hk. subst k.
      now constructor.
    + exists r. split; [reflexivity |]. cbn [app] in Hk. now subst k.
  - exists k. split; [| exact Hcut]. cbn [app]. f_equal. exact Hk.
Qed.

Lemma TrimRight_cutset l : Forall in_cutset l -> TrimRight l cutset = [].
Proof.
  induction 1 as [| c r Hc _ IH]; [reflexivity |].
  cbn [TrimRight]. rewrite IH. unfold in_cutset in Hc. now rewrite Hc.
Qed.

Lemma trimmed_suffix l l' : l' `suffix_of` l -> trimmed l -> trimmed l'.
Proof.
  intros [k ->] Ht c Hc. apply Ht. rewrite last_app, Hc. reflexivity.
Qed.

Lemma ReplaceTab_plain l : Forall plain l -> ReplaceTab l spaces4 = l.
Proof.
  induction 1 as [| c r [Hc _] _ IH]; [reflexivity |].
  cbn [ReplaceTab]. destruct (Ascii.eqb_spec c TAB); [contradiction |].
  now rewrite IH.
Qed.

Lemma ReplaceTab_makes_plain l :
  Forall (fun c => c <> LF) l -> Forall plain (ReplaceTab l spaces4).
Proof.
  induction 1 as [| c r Hc _ IH]; [constructor |].
  cbn [ReplaceTab]. destruct (Ascii.eqb_spec c TAB).
  - apply Forall_app. split; [| exact IH].
    repeat constructor; discriminate.
  - constructor; [now split | exact IH].
Qed.

Lemma ReplaceTab_nil_inv l : ReplaceTab l spaces4 = [] -> l = [].
Proof.
  destruct l as [| c r]; [reflexivity |]. cbn [ReplaceTab].
  destruct (Ascii.eqb c TAB); discriminate.
Qed.

Lemma ReplaceTab_last l c :
  last (ReplaceTab l spaces4) = Some c ->
  last l = Some c \/ (last l = Some TAB /\ c = SP).
Proof.
  revert c. induction l as [| x r IH]; intros c; [discriminate |].
  cbn [ReplaceTab]. destruct r as [| y r'].
  - cbn [ReplaceTab]. destruct (Ascii.eqb_spec x TAB) as [-> |].
    + intros [= <-]. now right.
    + intros [= <-]. now left.
  - assert (last (ReplaceTab (y :: r') spaces4) <> None) as Hne.
    { intros Hn. apply last_None in Hn. now apply ReplaceTab_nil_inv in Hn. }
    intros Hc.
    assert (last (ReplaceTab (y :: r') spaces4) = Some c) as Hc'.
    { destruct (Ascii.eqb x TAB).
      - rewrite last_app in Hc. destruct (last (ReplaceTab (y :: r') spaces4)); congruence.
      - rewrite last_cons in Hc. destruct (last (ReplaceTab (y :: r') spaces4)); congruence. }
    apply IH in Hc'. exact Hc'.
Qed.

Lemma ReplaceTab_trimmed l : trimmed l -> trimmed (ReplaceTab l spaces4).
Proof.
  intros Ht c Hc. apply ReplaceTab_last in Hc as [Hc | [Hc _]].
  - now apply Ht.
  - exfalso. apply (Ht TAB Hc). reflexivity.
Qed.

(** *** [Split] and [Join] *)

Lemma Split_not_nil s : Split s <> [].
Proof.
  destruct s as [| c r]; [discriminate |]. cbn [Split].
  destruct (Ascii.eqb c LF); [discriminate |]. destruct (Split r); discriminate.
Qed.

Lemma Split_lines s : Forall (Forall (fun c => c <> LF)) (Split s).
Proof.
  induction s as [| c r IH]; [repeat constructor |].
  cbn [Split]. destruct (Ascii.eqb_spec c LF).
  - constructor; [constructor | exact IH].
  - destruct (Split r) as [| h t]; [repeat constructor; assumption |].
    inversion IH; subst. constructor; [now constructor | assumption].
Qed.

Lemma Split_line l : Forall (fun c => c <> LF) l -> Split l = [l].
Proof.
  induction 1 as [| c r Hc _ IH]; [reflexivity |].
  cbn [Split]. destruct (Ascii.eqb_spec c LF); [contradiction |].
  now rewrite IH.
Qed.

Lemma Split_app_LF l s :
  Forall (fun c => c <> LF) l -> Split (l ++ LF :: s) = l :: Split s.
Proof.
  induction 1 as [| c r Hc _ IH]; [reflexivity |].
  cbn [app Split]. destruct (Ascii.eqb_spec c LF); [contradiction |].
  now rewrite IH.
Qed.

Lemma Split_Join t :
  t <> [] -> Forall (Forall (fun c => c <> LF)) t -> Split (Join t) = t.
Proof.
  induction t as [| l rest IH]; [congruence |].
  intros _ Hall. inversion Hall as [| ? ? Hl Hrest]; subst.
  destruct rest as [| l2 rest'].
  - cbn [Join]. now apply Split_line.
  - change (Join (l :: l2 :: rest')) with (l ++ LF :: Join (l2 :: rest')).
    rewrite Split_app_LF by assumption. f_equal. now apply IH.
Qed.

(** *** Blank lines at both ends *)

Lemma dropBlankHead_headOK t : headOK (dropBlankHead t).
Proof.
  induction t as [| l rest IH]; [intros x [=] |].
  cbn [dropBlankHead]. destruct l as [| c l']; [exact IH |].
  intros x [= <-]. discriminate.
Qed.

Lemma dropBlankHead_id t : headOK t -> dropBlankHead t = t.
Proof.
  destruct t as [| l rest]; [reflexivity |]. intros H.
  cbn [dropBlankHead]. destruct l; [now destruct (H [] eq_refl) | reflexivity].
Qed.

Lemma dropBlankHead_suffix t : dropBlankHead t `suffix_of` t.
Proof.
  induction t as [| l rest IH]; [reflexivity |].
  cbn [dropBlankHead]. destruct (is_empty l); [now apply suffix_cons_r | reflexivity].
Qed.

Lemma dropBlankTail_lastOK t : lastOK (dropBlankTail t).
Proof.
  induction t as [| l rest IH]; [intros x [=] |].
  cbn [dropBlankTail]. destruct (dropBlankTail rest) as [| l2 rest'] eqn:E.
  - destruct l as [| c l']; [intros x [=] |]. intros x [= <-]. discriminate.
  - intros x Hx. apply IH. exact Hx.
Qed.

Lemma dropBlankTail_id t : lastOK t -> dropBlankTail t = t.
Proof.
  induction t as [| l rest IH]; [reflexivity |]. intros H.
  cbn [dropBlankTail]. destruct rest as [| l2 rest'].
  - cbn [dropBlankTail]. destruct l; [now destruct (H [] eq_refl) | reflexivity].
  - rewrite IH; [reflexivity |]. intros x Hx. apply H. exact Hx.
Qed.

Lemma dropBlankTail_prefix t : dropBlankTail t `prefix_of` t.
Proof.
  induction t as [| l rest IH]; [reflexivity |].
  cbn [dropBlankTail]. destruct (dropBlankTail rest) as [| l2 rest'] eqn:E.
  - destruct (is_empty l); [apply prefix_nil |]. apply prefix_cons, prefix_nil.
  - now apply prefix_cons.
Qed.

Lemma dropBlankTail_headOK t : headOK t -> headOK (dropBlankTail t).
Proof.
  intros H x Hx. apply H.
  destruct (dropBlankTail_prefix t) as [k Hk]. rewrite Hk.
  destruct (dropBlankTail t); [discriminate | exact Hx].
Qed.

Lemma headOK_map (g : gostring -> gostring) t :
  (forall l, l ∈ t -> l <> [] -> g l <> []) -> headOK t -> headOK (map g t).
Proof.
  destruct t as [| l rest]; [intros _ _ x [=] |].
  intros Hg H x [= <-]. apply Hg; [left | now apply H].
Qed.

Lemma last_map {A B} (g : A -> B) (t : list A) : last (map g t) = g <$> last t.
Proof.
  induction t as [| l rest IH]; [reflexivity |].
  destruct rest as [| l2 rest']; [reflexivity |]. exact IH.
Qed.

Lemma lastOK_map (g : gostring -> gostring) t :
  (forall l, l ∈ t -> l <> [] -> g l <> []) -> lastOK t -> lastOK (map g t).
Proof.
  intros Hg H x. rewrite last_map.
  destruct (last t) as [l |] eqn:E; [| discriminate].
  intros [= <-]. apply Hg; [| now apply H].
  apply last_Some in E as [k ->]. apply elem_of_app. right. left.
Qed.

(** *** Blocks that [cleanup] leaves as they are *)

Lemma map_fixed {A} (g : A -> A) (t : list A) :
  Forall (fun x => g x = x) t -> map g t = t.
Proof. induction 1 as [| x r Hx _ IH]; cbn [map]; congruence. Qed.

Lemma clean_fixed t : clean t -> cleanup (block_String t) = t.
Proof.
  intros (Hlines & Hhead & Hlast & Hmin).
  destruct t as [| l0 rest]; [reflexivity |].
  unfold cleanup, block_String, newBlock.
  rewrite Split_Join; [| discriminate |].
  2:{ eapply Forall_impl; [exact Hlines |]. intros l [_ Hp].
      eapply Forall_impl; [exact Hp |]. now intros c [_ ?]. }
  assert (trimSpace (l0 :: rest) = l0 :: rest) as ->.
  { unfold trimSpace. rewrite map_fixed.
    - rewrite dropBlankHead_id by assumption. now apply dropBlankTail_id.
    - eapply Forall_impl; [exact Hlines |]. intros l [Ht _]. now apply TrimRight_id. }
  assert (untabify 0 (l0 :: rest) = l0 :: rest) as ->.
  { unfold untabify. change (if 0 <=? 0 then 4 else 0) with 4. rewrite map_fixed; [reflexivity |].
    eapply Forall_impl; [exact Hlines |]. intros l [_ Hp]. now apply ReplaceTab_plain. }
  unfold leftJust. destruct (minSpace None (l0 :: rest)) as [m |] eqn:Em; [| reflexivity].
  destruct Hmin as [[=] | (l & Hin & Hnb & Hl)].
  apply minSpace_acc in Em as (_ & _ & Hle).
  specialize (Hle l Hin Hnb). rewrite Hl in Hle.
  destruct m; [| cbn in Hle; lia].
  apply map_fixed, Forall_forall. intros x _. apply TrimPrefix_nil.
Qed.

(** *** Strings made of space runes *)

Lemma spaceWidth_local s r :
  spaceWidth s <> 0%nat ->
  spaceWidth (take (spaceWidth s) s ++ r) = spaceWidth s.
Proof.
  intros Hn. pose proof (spaceWidth_space_head s Hn) as Hh.
  remember (spaceWidth s) as n eqn:En.
  destruct Hh as [c s' Hc Hsp | c d s' Hc Hd Hloc | c d e s' Hc Hd He Hloc].
  - cbn [take app]. rewrite take_0. cbn [app]. unfold spaceWidth. cbn [decodeRune].
    destruct (Z.ltb_spec (byteval c) 0x80); [| lia]. now rewrite Hsp.
  - cbn [take app]. rewrite take_0. cbn [app]. rewrite En.
    unfold spaceWidth. now rewrite (Hloc r).
  - cbn [take app]. rewrite take_0. cbn [app]. rewrite En.
    unfold spaceWidth. now rewrite (Hloc r).
Qed.

Lemma spaceWidth_le s : (spaceWidth s <= length s)%nat.
Proof.
  destruct (spaceWidth s) as [| n] eqn:En; [lia |].
  assert (space_head s (S n)) as Hh by (rewrite <- En; apply spaceWidth_space_head; lia).
  apply space_head_width in Hh. lia.
Qed.

Lemma leftSpace_nil_iff s : leftSpace s = [] <-> spaceWidth s = 0%nat.
Proof.
  rewrite leftSpace_unfold. destruct (spaceWidth s) as [| n] eqn:En; [easy |].
  split; [| discriminate]. intros H. apply app_eq_nil in H as [H _].
  pose proof (spaceWidth_le s). apply (f_equal length) in H.
  rewrite length_take in H. cbn [length] in H. lia.
Qed.

Lemma leftSpace_fixed_rest s :
  leftSpace s = s -> s <> [] ->
  spaceWidth s <> 0%nat
  /\ leftSpace (drop (spaceWidth s) s) = drop (spaceWidth s) s.
Proof.
  intros Hs Hne.
  assert (spaceWidth s <> 0%nat) as Hn.
  { intros H0. apply leftSpace_nil_iff in H0. congruence. }
  split; [exact Hn |].
  rewrite leftSpace_unfold in Hs.
  destruct (spaceWidth s) as [| n'] eqn:En; [congruence |].
  apply (app_inv_head (take (S n') s)). rewrite take_drop. exact Hs.
Qed.

(** [leftSpace a = a]: the string [a] consists of space runes. *)
Lemma leftSpace_app a b :
  leftSpace a = a -> leftSpace (a ++ b) = a ++ leftSpace b.
Proof.
  induction a as [a IH] using length_ind. intros Ha.
  destruct a as [| c a']; [reflexivity |].
  remember (c :: a') as s eqn:Es.
  destruct (leftSpace_fixed_rest s Ha) as [Hn Hrest]; [subst s; discriminate |].
  pose proof (spaceWidth_le s) as Hle.
  assert (spaceWidth (s ++ b) = spaceWidth s) as Hw.
  { rewrite <- (take_drop (spaceWidth s) s) at 1.
    rewrite <- app_assoc. now apply spaceWidth_local. }
  rewrite (leftSpace_unfold (s ++ b)), Hw.
  destruct (spaceWidth s) as [| n'] eqn:En; [congruence |].
  rewrite take_app_le, drop_app_le by lia.
  rewrite IH; [| rewrite length_drop; subst s; cbn [length]; lia | exact Hrest].
  now rewrite app_assoc, take_drop.
Qed.

Lemma leftSpace_idem s : leftSpace (leftSpace s) = leftSpace s.
Proof.
  induction s as [s IH] using length_ind.
  rewrite (leftSpace_unfold s).
  destruct (spaceWidth s) as [| n] eqn:En; [reflexivity |].
  pose proof (spaceWidth_le s) as Hle.
  assert (leftSpace (take (S n) s) = take (S n) s) as Hone.
  { rewrite leftSpace_unfold.
    assert (spaceWidth (take (S n) s) = S n) as ->.
    { rewrite <- En. rewrite <- (app_nil_r (take _ s)).
      apply spaceWidth_local. lia. }
    rewrite take_take, Nat.min_id, drop_ge by (rewrite length_take; lia).
    now rewrite app_nil_r. }
  rewrite leftSpace_app by exact Hone.
  rewrite IH by (rewrite length_drop; lia). reflexivity.
Qed.

Lemma leftSpace_cutset c r :
  in_cutset c -> leftSpace (c :: r) = c :: leftSpace r.
Proof.
  intros Hc.
  assert (spaceWidth (c :: r) = 1%nat) as Hw.
  { unfold in_cutset, mem, cutset in Hc. cbn [existsb] in Hc.
    repeat (apply orb_true_iff in Hc as [Hc | Hc];
            [apply Ascii.eqb_eq in Hc; subst c; reflexivity |]).
    discriminate. }
  rewrite leftSpace_unfold, Hw. reflexivity.
Qed.

Lemma leftSpace_all_cutset k : Forall in_cutset k -> leftSpace k = k.
Proof.
  induction 1 as [| c r Hc _ IH]; [reflexivity |].
  rewrite leftSpace_cutset by assumption. now rewrite IH.
Qed.

Lemma last_in_cutset_of_spaces s c :
  leftSpace s = s -> last s = Some c -> byteval c < 0x80 -> IsSpace (byteval c) = true.
Proof.
  induction s as [s IH] using length_ind. intros Hs Hc Hlt.
  destruct s as [| x s']; [discriminate |].
  destruct (leftSpace_fixed_rest (x :: s') Hs) as [Hn Hrest]; [discriminate |].
  pose proof (spaceWidth_space_head _ Hn) as Hh.
  remember (spaceWidth (x :: s')) as n eqn:En.
  remember (x :: s') as s eqn:Es.
  destruct Hh as [c0 r Hc0 Hsp | c0 d r Hc0 Hd Hloc | c0 d e r Hc0 Hd He Hloc].
  - destruct r as [| y r'].
    + injection Hc as <-. exact Hsp.
    + apply (IH (y :: r')); [cbn; lia | exact Hrest | exact Hc | exact Hlt].
  - destruct r as [| y r'].
    + injection Hc as <-. lia.
    + apply (IH (y :: r')); [cbn; lia | exact Hrest | exact Hc | exact Hlt].
  - destruct r as [| y r'].
    + injection Hc as <-. lia.
    + apply (IH (y :: r')); [cbn; lia | exact Hrest | exact Hc | exact Hlt].
Qed.

Lemma leftSpace_rune s r :
  spaceWidth s <> 0%nat -> leftSpace r = r ->
  leftSpace (take (spaceWidth s) s ++ r) = take (spaceWidth s) s ++ r.
Proof.
  intros Hn Hr. pose proof (spaceWidth_le s) as Hle.
  rewrite leftSpace_unfold, spaceWidth_local by assumption.
  destruct (spaceWidth s) as [| n] eqn:En; [congruence |].
  rewrite take_app_length', drop_app_length' by (rewrite length_take; lia).
  now rewrite Hr.
Qed.

Lemma ReplaceTab_head_high x d r :
  ReplaceTab x spaces4 = d :: r -> 0x80 <= byteval d ->
  exists x', x = d :: x' /\ r = ReplaceTab x' spaces4.
Proof.
  destruct x as [| c x']; [discriminate |]. cbn [ReplaceTab].
  destruct (Ascii.eqb c TAB).
  - intros [= <- _] H. vm_compute in H. now destruct H.
  - intros [= <- <-] _. now exists x'.
Qed.

(** Tab expansion does not turn a string that holds something else into
    a string of space runes. *)
Lemma leftSpace_ReplaceTab x :
  leftSpace (ReplaceTab x spaces4) = ReplaceTab x spaces4 -> leftSpace x = x.
Proof.
  induction x as [x IH] using length_ind. intros H.
  destruct x as [| c x']; [reflexivity |].
  cbn [ReplaceTab] in H. destruct (Ascii.eqb_spec c TAB) as [-> | Hc].
  - change (spaces4 ++ ReplaceTab x' spaces4)
      with (SP :: SP :: SP :: SP :: ReplaceTab x' spaces4) in H.
    rewrite 4!leftSpace_cutset in H by reflexivity.
    injection H as H. apply IH in H; [| cbn; lia].
    rewrite leftSpace_cutset by reflexivity. now rewrite H.
  - remember (c :: ReplaceTab x' spaces4) as s eqn:Es.
    destruct (leftSpace_fixed_rest s H) as [Hn Hrest]; [subst s; discriminate |].
    pose proof (spaceWidth_space_head s Hn) as Hh.
    pose proof (fun r => leftSpace_rune s r Hn) as Hrune.
    remember (spaceWidth s) as n eqn:En.
    destruct Hh as [c0 r Hc0 Hsp | c0 d r Hc0 Hd Hloc | c0 d e r Hc0 Hd He Hloc].
    + injection Es as -> ->. cbn [drop] in Hrest. rewrite drop_0 in Hrest.
      apply IH in Hrest; [| cbn; lia].
      specialize (Hrune x' Hrest). cbn [take] in Hrune. now rewrite take_0 in Hrune.
    + injection Es as -> Es. symmetry in Es.
      apply ReplaceTab_head_high in Es as (x2 & -> & ->); [| exact Hd].
      cbn [drop] in Hrest. rewrite drop_0 in Hrest.
      apply IH in Hrest; [| cbn; lia].
      specialize (Hrune x2 Hrest). cbn [take] in Hrune. now rewrite take_0 in Hrune.
    + injection Es as -> Es. symmetry in Es.
      apply ReplaceTab_head_high in Es as (x2 & -> & Es); [| exact Hd].
      symmetry in Es.
      apply ReplaceTab_head_high in Es as (x3 & -> & ->); [| exact He].
      cbn [drop] in Hrest. rewrite drop_0 in Hrest.
      apply IH in Hrest; [| cbn; lia].
      specialize (Hrune x3 Hrest). cbn [take] in Hrune. now rewrite take_0 in Hrune.
Qed.

(** *** The block that [cleanup] returns *)

Lemma blank_lines_plain_spec T l :
  blank_lines_plain T = true -> l ∈ Split T -> leftSpace l = l -> Forall in_cutset l.
Proof.
  unfold blank_lines_plain. rewrite forallb_forall. intros H Hl Hs.
  apply list_elem_of_In in Hl. specialize (H l Hl).
  assert (string_eq (leftSpace l) l = true) as E by now apply string_eq_true.
  rewrite E in H. cbn [implb] in H.
  rewrite forallb_forall in H. apply Forall_forall. intros c Hc.
  apply H. now apply list_elem_of_In.
Qed.

Lemma elem_of_map {A B} (g : A -> B) (t : list A) y :
  y ∈ map g t <-> exists x, x ∈ t /\ y = g x.
Proof.
  rewrite list_elem_of_In, in_map_iff. split.
  - intros (x & <- & Hx). exists x. split; [now apply list_elem_of_In | reflexivity].
  - intros (x & Hx & ->). exists x. split; [reflexivity | now apply list_elem_of_In].
Qed.

Lemma elem_of_expanded T l :
  l ∈ expanded T ->
  exists l1, l1 ∈ Split T /\ l = ReplaceTab (TrimRight l1 cutset) spaces4.
Proof.
  unfold expanded, untabify, trimSpace, newBlock.
  change (if 0 <=? 0 then 4 else 0) with 4. fold spaces4.
  intros H. apply elem_of_map in H as (l0 & Hl0 & ->).
  destruct (dropBlankTail_prefix
              (dropBlankHead (map (fun line => TrimRight line cutset) (Split T))))
    as [k1 Hk1].
  destruct (dropBlankHead_suffix (map (fun line => TrimRight line cutset) (Split T)))
    as [k2 Hk2].
  assert (l0 ∈ map (fun line => TrimRight line cutset) (Split T)) as Hin.
  { rewrite Hk2. apply elem_of_app. right. rewrite Hk1. apply elem_of_app. now left. }
  apply elem_of_map in Hin as (l1 & Hl1 & ->). now exists l1.
Qed.

Lemma expanded_no_space_line T l :
  blank_lines_plain T = true -> l ∈ expanded T -> l <> [] -> leftSpace l <> l.
Proof.
  intros HT Hl Hnb Hs. apply elem_of_expanded in Hl as (l1 & Hl1 & ->).
  apply leftSpace_ReplaceTab in Hs.
  destruct (TrimRight_split l1) as (k & Hk & Hcut).
  assert (leftSpace l1 = l1) as Hs1.
  { rewrite Hk at 1. rewrite leftSpace_app by exact Hs.
    rewrite leftSpace_all_cutset by exact Hcut. now rewrite <- Hk. }
  pose proof (blank_lines_plain_spec T l1 HT Hl1 Hs1) as Hall.
  apply TrimRight_cutset in Hall. rewrite Hall in Hnb. now apply Hnb.
Qed.

Lemma expanded_line_ok T : Forall line_ok (expanded T).
Proof.
  apply Forall_forall. intros l Hl.
  apply elem_of_expanded in Hl as (l1 & Hl1 & ->). split.
  - apply ReplaceTab_trimmed, TrimRight_trimmed.
  - apply ReplaceTab_makes_plain.
    pose proof (Split_lines T) as Hlines. rewrite Forall_forall in Hlines.
    specialize (Hlines l1 Hl1).
    destruct (TrimRight_split l1) as (k & Hk & _). rewrite Hk in Hlines.
    now apply Forall_app in Hlines as [? _].
Qed.

Lemma expanded_ends T : headOK (expanded T) /\ lastOK (expanded T).
Proof.
  unfold expanded, untabify, trimSpace, newBlock.
  change (if 0 <=? 0 then 4 else 0) with 4. fold spaces4.
  assert (forall l : gostring, l <> [] -> ReplaceTab l spaces4 <> []) as Hg.
  { intros l Hl H. now apply ReplaceTab_nil_inv in H. }
  split.
  - apply headOK_map; [intros l _; apply Hg |].
    apply dropBlankTail_headOK, dropBlankHead_headOK.
  - apply lastOK_map; [intros l _; apply Hg |]. apply dropBlankTail_lastOK.
Qed.

Lemma TrimPrefix_nil_inv l m : TrimPrefix l m = [] -> l = [] \/ l = m.
Proof.
  unfold TrimPrefix. destruct (HasPrefix l m) eqn:E; [| now left].
  apply HasPrefix_true in E as [r ->]. rewrite drop_app_length.
  intros ->. right. now rewrite app_nil_r.
Qed.

Lemma cleanup_clean T : blank_lines_plain T = true -> clean (cleanup T).
Proof.
  intros HT. change (cleanup T) with (leftJust (expanded T)).
  pose proof (expanded_line_ok T) as Hok.
  destruct (expanded_ends T) as [Hhead Hlast].
  pose proof (fun l => expanded_no_space_line T l HT) as Hns.
  unfold leftJust. destruct (minSpace None (expanded T)) as [m |] eqn:Em.
  - pose proof (minSpace_acc _ _ _ Em) as (Hfrom & _ & _).
    destruct Hfrom as [[=] | (l0 & Hin0 & Hnb0 & ->)].
    assert (forall l, l ∈ expanded T -> l <> [] ->
                      TrimPrefix l (leftSpace l0) <> []) as Hg.
    { intros l Hl Hnb H. apply TrimPrefix_nil_inv in H as [-> | ->]; [congruence |].
      apply (Hns _ Hl Hnb). apply leftSpace_idem. }
    repeat split.
    + apply Forall_forall. intros l Hl. apply elem_of_map in Hl as (l1 & Hl1 & ->).
      rewrite Forall_forall in Hok. destruct (Hok l1 Hl1) as [Ht Hp]. split.
      * eapply trimmed_suffix; [apply TrimPrefix_suffix | exact Ht].
      * destruct (TrimPrefix_suffix l1 (leftSpace l0)) as [k Hk].
        rewrite Hk in Hp. now apply Forall_app in Hp as [_ ?].
    + now apply headOK_map.
    + now apply lastOK_map.
    + right. exists (TrimPrefix l0 (leftSpace l0)). split; [| split].
      * apply elem_of_map. now exists l0.
      * now apply Hg.
      * rewrite (leftSpace_split l0) at 1. rewrite TrimPrefix_app.
        apply leftSpace_rest.
  - apply minSpace_None in Em as [_ Hblank].
    destruct (expanded T) as [| l rest] eqn:E.
    + repeat split; [constructor | intros x [=] | intros x [=] | now left].
    + exfalso. inversion Hblank; subst. now apply (Hhead [] eq_refl).
Qed.

(** C3, as stated: normalising twice would give what normalising once
    gives, for every text.  A line that holds only a vertical tab
    becomes blank in the first pass (the tab is the common leading
    whitespace) and is dropped as a trailing blank line by the second. *)
Lemma C3_cleanup_counterexample :
  ~ (forall T, cleanup (block_String (cleanup T)) = cleanup T).
Proof.
  intros H. specialize (H (VT :: str "a" ++ [LF; VT])). discriminate H.
Qed.

(** C3, amended: normalisation is idempotent on every text whose
    whitespace-only lines are made of spaces, tabs and carriage returns:
    for such a text T, normalize(normalize(T)) = normalize(T). *)
Theorem C3_cleanup_idempotent T :
  blank_lines_plain T = true ->
  cleanup (block_String (cleanup T)) = cleanup T.
Proof. intros HT. now apply clean_fixed, cleanup_clean. Qed.

Lemma C3_cleanup_idempotent_witness :
  let T := str "  a  " ++ [LF; TAB] ++ str "b" ++ [VT; CR; LF; SP; LF] in
  blank_lines_plain T = true /\
  cleanup (block_String (cleanup T)) = cleanup T.
Proof.
  split; [reflexivity | apply C3_cleanup_idempotent; reflexivity].
Defined.

(** * Further properties of the package *)

(** ** Blocks and strings (text.go) *)

Lemma Join_cons l rest :
  rest <> [] -> Join (l :: rest) = l ++ LF :: Join rest.
Proof. destruct rest; [congruence | reflexivity]. Qed.

(** X1: splitting a string into a block and joining the block again
    gives the string back, for every string. *)
Theorem String_newBlock s : block_String (newBlock s) = s.
Proof.
  unfold block_String, newBlock.
  induction s as [| c r IH]; [reflexivity |].
  cbn [Split]. destruct (Ascii.eqb_spec c LF) as [-> | Hc].
  - rewrite Join_cons by apply Split_not_nil. now rewrite IH.
  - destruct (Split r) as [| h t] eqn:E; [now destruct (Split_not_nil r) |].
    rewrite <- IH. destruct t; reflexivity.
Qed.

(** X2: a block that has at least one line, none of which holds a line
    feed, is what [newBlock] gives for its string.  (The empty block is
    not: its string is empty, and the empty string splits into one
    empty line.) *)
Theorem newBlock_String (t : block) :
  t <> [] -> Forall (fun l => LF ∉ l) t ->
  newBlock (block_String t) = t
  /\ newBlock (block_String []) = [[]].
Proof.
  intros Hne Hlf. split; [| reflexivity].
  apply Split_Join; [exact Hne |].
  eapply Forall_impl; [exact Hlf |]. intros l Hl.
  apply Forall_forall. intros c Hc ->. contradiction.
Qed.

Lemma newBlock_String_witness :
  let t := [str "a"; []; str " b"] in
  t <> [] /\ Forall (fun l => LF ∉ l) t /\
  (newBlock (block_String t) = t /\ newBlock (block_String []) = [[]]).
Proof.
  cbv zeta.
  assert (Forall (fun l : gostring => LF ∉ l) [str "a"; []; str " b"]) as H.
  { repeat constructor; intros Hin; vm_compute in Hin;
      repeat (apply elem_of_cons in Hin as [Hin | Hin]; [discriminate Hin |]);
      now apply elem_of_nil in Hin. }
  split; [discriminate |]. split; [exact H |].
  apply newBlock_String; [discriminate | exact H].
Defined.

(** X3: after [trimSpace] no line ends in a space, tab, carriage return
    or line feed, and neither the first nor the last line is blank. *)
Theorem trimSpace_shape (t : block) :
  Forall (fun l => TrimRight l cutset = l
                   /\ forall c, last l = Some c -> mem c cutset = false)
         (trimSpace t)
  /\ head (trimSpace t) <> Some []
  /\ last (trimSpace t) <> Some [].
Proof.
  unfold trimSpace.
  set (lines := map (fun line => TrimRight line cutset) t).
  split; [| split].
  - apply Forall_forall. intros l Hl.
    assert (l ∈ lines) as Hin.
    { destruct (dropBlankTail_prefix (dropBlankHead lines)) as [k1 Hk1].
      destruct (dropBlankHead_suffix lines) as [k2 Hk2].
      rewrite Hk2. apply elem_of_app. right. rewrite Hk1. apply elem_of_app. now left. }
    apply elem_of_map in Hin as (l0 & _ & ->).
    pose proof (TrimRight_trimmed l0) as Ht. split.
    + now apply TrimRight_id.
    + intros c Hc. specialize (Ht c Hc). unfold in_cutset in Ht.
      now destruct (mem c cutset).
  - intros H. now apply (dropBlankTail_headOK _ (dropBlankHead_headOK lines) []).
  - intros H. now apply (dropBlankTail_lastOK (dropBlankHead lines) []).
Qed.

Lemma trimSpace_lines_fixed (t : block) :
  Forall (fun l => TrimRight l cutset = l) (trimSpace t).
Proof.
  unfold trimSpace.
  set (lines := map (fun line => TrimRight line cutset) t).
  apply Forall_forall. intros l Hl.
  assert (l ∈ lines) as Hin.
  { destruct (dropBlankTail_prefix (dropBlankHead lines)) as [k1 Hk1].
    destruct (dropBlankHead_suffix lines) as [k2 Hk2].
    rewrite Hk2. apply elem_of_app. right. rewrite Hk1. apply elem_of_app. now left. }
  apply elem_of_map in Hin as (l0 & _ & ->).
  apply TrimRight_id, TrimRight_trimmed.
Qed.

(** X4: [trimSpace] is idempotent on every block. *)
Theorem trimSpace_idempotent (t : block) :
  trimSpace (trimSpace t) = trimSpace t.
Proof.
  pose proof (trimSpace_lines_fixed t) as Hlines.
  assert (headOK (trimSpace t)) as Hhead
      by (unfold trimSpace; apply dropBlankTail_headOK, dropBlankHead_headOK).
  assert (lastOK (trimSpace t)) as Hlast
      by (unfold trimSpace; apply dropBlankTail_lastOK).
  set (u := trimSpace t) in *. unfold trimSpace at 1.
  rewrite map_fixed by exact Hlines.
  rewrite dropBlankHead_id by exact Hhead. now apply dropBlankTail_id.
Qed.

Lemma ReplaceTab_no_tab l new :
  Forall (fun c => c <> TAB) new -> Forall (fun c => c <> TAB) (ReplaceTab l new).
Proof.
  intros Hnew. induction l as [| c r IH]; [constructor |].
  cbn [ReplaceTab]. destruct (Ascii.eqb_spec c TAB).
  - apply Forall_app. now split.
  - now constructor.
Qed.

Lemma ReplaceTab_id l new :
  Forall (fun c => c <> TAB) l -> ReplaceTab l new = l.
Proof.
  induction 1 as [| c r Hc _ IH]; [reflexivity |].
  cbn [ReplaceTab]. destruct (Ascii.eqb_spec c TAB); [contradiction |].
  now rewrite IH.
Qed.

Lemma Repeat_SP_no_tab n : Forall (fun c => c <> TAB) (Repeat SP n).
Proof.
  unfold Repeat. induction (Z.to_nat n) as [| k IH]; [constructor |].
  cbn [replicate]. constructor; [discriminate | exact IH].
Qed.

(** X5: whatever the width, [untabify] leaves no tab in any line, keeps
    the number of lines, and applying it again changes nothing; a width
    of zero or less stands for 4. *)
Theorem untabify_no_tabs (width : Z) (t : block) :
  Forall (fun l => TAB ∉ l) (untabify width t)
  /\ length (untabify width t) = length t
  /\ untabify width (untabify width t) = untabify width t
  /\ (width <= 0 -> untabify width t = untabify 4 t).
Proof.
  assert (Forall (Forall (fun c => c <> TAB)) (untabify width t)) as Hno.
  { unfold untabify. apply Forall_forall. intros l Hl.
    apply elem_of_map in Hl as (l0 & _ & ->).
    apply ReplaceTab_no_tab, Repeat_SP_no_tab. }
  split; [| split; [| split]].
  - eapply Forall_impl; [exact Hno |]. intros l Hl Hin.
    rewrite Forall_forall in Hl. now apply (Hl TAB).
  - unfold untabify. apply length_map.
  - unfold untabify at 1. apply map_fixed.
    eapply Forall_impl; [exact Hno |]. intros l Hl. now apply ReplaceTab_id.
  - intros Hw. unfold untabify.
    destruct (Z.leb_spec width 0); [reflexivity | lia].
Qed.

(** ** Leading whitespace (text.go) *)

Lemma spaceWidth_0_not_space s :
  spaceWidth s = 0%nat -> IsSpace (fst (decodeRune s)) = false.
Proof.
  unfold spaceWidth. destruct (decodeRune s) as [r n] eqn:E. cbn [fst].
  destruct (IsSpace r) eqn:Hsp; [| reflexivity].
  intros ->. destruct (decode_space s r 0 E Hsp) as [Hh _].
  apply space_head_width in Hh. lia.
Qed.

Lemma leftSpace_fixed_space_runes l : leftSpace l = l -> space_runes l.
Proof.
  induction l as [l IH] using length_ind. intros Hl.
  destruct l as [| c0 l']; [constructor |].
  rewrite leftSpace_unfold in Hl. unfold spaceWidth in Hl |- *.
  destruct (decodeRune (c0 :: l')) as [r n] eqn:Ed.
  destruct (IsSpace r) eqn:Er; [| discriminate].
  destruct n as [| n]; [discriminate |].
  apply (space_runes_cons _ r (S n) Ed Er); [lia |].
  apply IH.
  - rewrite length_drop. cbn [length]. lia.
  - rewrite <- (take_drop (S n) (c0 :: l')) in Hl at 3.
    now apply app_inv_head in Hl.
Qed.

(** X6: [leftSpace s] is the longest prefix of [s] made of space runes:
    it is a prefix, it decodes rune by rune into runes that
    [unicode.IsSpace] accepts, and the rune that follows it (if any) is
    not a space. *)
Theorem leftSpace_longest_prefix s :
  exists rest,
    s = leftSpace s ++ rest
    /\ space_runes (leftSpace s)
    /\ IsSpace (fst (decodeRune rest)) = false.
Proof.
  exists (drop (length (leftSpace s)) s).
  split; [apply leftSpace_split |].
  split; [apply leftSpace_fixed_space_runes, leftSpace_idem |].
  apply spaceWidth_0_not_space, leftSpace_nil_iff, leftSpace_rest.
Qed.

Lemma drop_leftSpace_app m r :
  leftSpace m = m ->
  drop (length (leftSpace (m ++ r))) (m ++ r) = drop (length (leftSpace r)) r.
Proof.
  intros Hm. rewrite leftSpace_app by exact Hm.
  rewrite length_app, <- drop_drop. now rewrite drop_app_length.
Qed.

(** X7: [leftJust] keeps the number of lines and takes nothing but
    leading whitespace away: every line of the result is the end of the
    line it comes from, and what follows the leading whitespace is the
    same in both. *)
Theorem leftJust_keeps_text (t : block) :
  length (leftJust t) = length t
  /\ forall i l, t !! i = Some l ->
       exists l', leftJust t !! i = Some l'
         /\ l' `suffix_of` l
         /\ drop (length (leftSpace l')) l' = drop (length (leftSpace l)) l.
Proof.
  unfold leftJust. destruct (minSpace None t) as [m |] eqn:Em.
  - split; [apply length_map |]. intros i l Hl.
    exists (TrimPrefix l m). rewrite lookup_map, Hl.
    split; [reflexivity |]. split; [apply TrimPrefix_suffix |].
    pose proof (minSpace_acc _ _ _ Em) as (Hfrom & _ & _).
    destruct Hfrom as [[=] | (l0 & _ & _ & ->)].
    unfold TrimPrefix. destruct (HasPrefix l (leftSpace l0)) eqn:E; [| reflexivity].
    apply HasPrefix_true in E as [r ->]. rewrite drop_app_length.
    symmetry. apply drop_leftSpace_app, leftSpace_idem.
  - split; [reflexivity |]. intros i l Hl. exists l. now repeat split.
Qed.

(** ** Normalisation (license.go, text.go) *)

Lemma Split_chars (P : ascii -> Prop) s :
  Forall P s -> Forall (Forall P) (Split s).
Proof.
  induction 1 as [| c r Hc _ IH]; [repeat constructor |].
  cbn [Split]. destruct (Ascii.eqb c LF); [constructor; [constructor | exact IH] |].
  destruct (Split r) as [| h t]; [repeat constructor; assumption |].
  inversion IH; subst. constructor; [now constructor | assumption].
Qed.

Lemma dropBlankHead_all_blank ls :
  Forall (fun l => l = []) ls -> dropBlankHead ls = [].
Proof. induction 1 as [| l r -> _ IH]; [reflexivity | exact IH]. Qed.

(** X8: a text made of spaces, tabs, carriage returns and line feeds
    only is normalised to the empty block. *)
Theorem cleanup_blank_text T :
  Forall (fun c => mem c cutset = true) T -> cleanup T = [].
Proof.
  intros HT. unfold cleanup, trimSpace, newBlock.
  rewrite dropBlankHead_all_blank; [reflexivity |].
  apply Forall_forall. intros l Hl. apply elem_of_map in Hl as (l0 & Hl0 & ->).
  apply TrimRight_cutset.
  pose proof (Split_chars _ _ HT) as Hs. rewrite Forall_forall in Hs.
  now apply Hs.
Qed.

Lemma cleanup_blank_text_witness :
  let T := [SP; TAB; LF; CR; LF; SP; SP] in
  Forall (fun c => mem c cutset = true) T /\ cleanup T = [].
Proof.
  cbv zeta.
  assert (Forall (fun c => mem c cutset = true) [SP; TAB; LF; CR; LF; SP; SP]) as H
      by (repeat constructor).
  split; [exact H | now apply cleanup_blank_text].
Defined.

(** X9: when the whitespace-only lines of a text are made of spaces,
    tabs and carriage returns, its normal form has no line that ends in
    whitespace, no tab, no blank first or last line, and, unless it is
    empty, a non-blank line that starts at the left margin. *)
Theorem cleanup_shape T :
  blank_lines_plain T = true ->
  Forall (fun l => TrimRight l cutset = l /\ (TAB ∉ l) /\ (LF ∉ l)) (cleanup T)
  /\ head (cleanup T) <> Some []
  /\ last (cleanup T) <> Some []
  /\ (cleanup T = [] \/ exists l, l ∈ cleanup T /\ l <> [] /\ leftSpace l = []).
Proof.
  intros HT. destruct (cleanup_clean T HT) as (Hlines & Hhead & Hlast & Hmin).
  split; [| split; [| split]].
  - eapply Forall_impl; [exact Hlines |]. intros l [Ht Hp].
    rewrite Forall_forall in Hp. split; [now apply TrimRight_id |].
    split; intros Hin; now destruct (Hp _ Hin).
  - intros H. now apply (Hhead [] H).
  - intros H. now apply (Hlast [] H).
  - exact Hmin.
Qed.

Lemma cleanup_shape_witness :
  let T := [LF] ++ str "    if x {  " ++ [LF; TAB; TAB] ++ str "y" ++ [LF; SP; LF] in
  blank_lines_plain T = true /\
  (Forall (fun l => TrimRight l cutset = l /\ (TAB ∉ l) /\ (LF ∉ l)) (cleanup T)
   /\ head (cleanup T) <> Some []
   /\ last (cleanup T) <> Some []
   /\ (cleanup T = [] \/ exists l, l ∈ cleanup T /\ l <> [] /\ leftSpace l = [])).
Proof.
  split; [reflexivity | apply cleanup_shape; reflexivity].
Defined.

(** ** Indenting rules (text.go) *)

Lemma TrimRight_marker_line ind l :
  l <> [] -> TrimRight l cutset = l -> TrimRight (ind ++ l) cutset = ind ++ l.
Proof.
  intros Hne Hl. apply TrimRight_id. intros c Hc.
  rewrite last_app in Hc. destruct (last l) as [d |] eqn:E.
  - injection Hc as <-. rewrite <- Hl in E. now apply (TrimRight_trimmed l).
  - apply last_None in E. contradiction.
Qed.

Lemma indent_loop_lookup ind (ls : list gostring) i l :
  ls !! i = Some l ->
  indent_loop ind ls !! i =
  Some (if is_empty l && (S i =? length ls)%nat then l
        else TrimRight (ind ++ l) cutset).
Proof.
  revert i. induction ls as [| x rest IH]; intros i Hl; [discriminate |].
  destruct i as [| i].
  - injection Hl as ->. cbn [indent_loop length]. destruct rest; reflexivity.
  - exact (IH i Hl).
Qed.

Lemma indent_loop_length ind ls : length (indent_loop ind ls) = length ls.
Proof. induction ls as [| x rest IH]; cbn [indent_loop length]; congruence. Qed.

(** What [indent] does to each line. *)
Lemma indent_spec ind (b : block) :
  length (indent ind b) = length b
  /\ (forall i l, b !! i = Some l ->
       (l <> [] -> TrimRight l cutset = l -> indent ind b !! i = Some (ind ++ l))
       /\ (l = [] -> S i = length b -> indent ind b !! i = Some [])
       /\ (l = [] -> (S i < length b)%nat ->
           indent ind b !! i = Some (TrimRight ind cutset))).
Proof.
  unfold indent. split; [apply indent_loop_length |].
  intros i l Hl. rewrite (indent_loop_lookup ind b i l Hl). repeat split.
  - intros Hne Ht. destruct l; [congruence |]. cbn [is_empty andb].
    now rewrite TrimRight_marker_line.
  - intros -> Hlast. cbn [is_empty andb].
    now rewrite (proj2 (Nat.eqb_eq _ _) Hlast).
  - intros -> Hlt. cbn [is_empty andb].
    destruct (Nat.eqb_spec (S i) (length b)); [lia |]. now rewrite app_nil_r.
Qed.

(** X10: [indent] keeps the number of lines.  A non-blank line without
    trailing whitespace gets exactly the marker in front; a blank line
    becomes the marker without its trailing whitespace, except a blank
    last line, which stays empty; and no line of the result ends in
    whitespace. *)
Theorem indent_lines ind (b : block) :
  length (indent ind b) = length b
  /\ (forall i l, b !! i = Some l ->
       (l <> [] -> TrimRight l cutset = l -> indent ind b !! i = Some (ind ++ l))
       /\ (l = [] -> S i = length b -> indent ind b !! i = Some [])
       /\ (l = [] -> (S i < length b)%nat ->
           indent ind b !! i = Some (TrimRight ind cutset)))
  /\ Forall (fun l => TrimRight l cutset = l) (indent ind b).
Proof.
  destruct (indent_spec ind b) as [Hlen Hlines].
  split; [exact Hlen |]. split; [exact Hlines |].
  unfold indent. apply Forall_forall. intros l Hl.
  apply list_elem_of_lookup in Hl as [i Hi].
  destruct (lookup_lt_is_Some_2 b i) as [l0 Hl0].
  { apply lookup_lt_Some in Hi. now rewrite indent_loop_length in Hi. }
  rewrite (indent_loop_lookup ind b i l0 Hl0) in Hi.
  destruct (is_empty l0 && (S i =? length b)%nat) eqn:E; injection Hi as <-.
  - apply andb_true_iff in E as [E _].
    destruct l0; [reflexivity | cbn in E; discriminate E].
  - apply TrimRight_id, TrimRight_trimmed.
Qed.

Lemma TrimRight_nil_iff l :
  TrimRight l cutset = [] <-> Forall (fun c => mem c cutset = true) l.
Proof.
  split; [| apply TrimRight_cutset].
  intros H. destruct (TrimRight_split l) as (k & Hk & Hcut).
  rewrite H in Hk. cbn [app] in Hk. now subst k.
Qed.

(** X11: a comment rule puts its first marker on a line before the body
    and its last marker on a line after it, both as they are given.  In
    between, every non-blank line without trailing whitespace gets the
    continuation marker in front; a blank last line of the body stays
    empty; and every other blank line becomes the continuation marker
    without its trailing spaces, tabs, carriage returns and line feeds,
    which is the empty line exactly when the marker is made of these
    characters. *)
Theorem IComment_lines first rest last_ (b : block) :
  let out := fix_ (Some (IComment first rest last_)) b in
  length out = S (S (length b))
  /\ head out = Some first
  /\ last out = Some last_
  /\ (forall i l, b !! i = Some l ->
       (l <> [] -> TrimRight l cutset = l -> out !! S i = Some (rest ++ l))
       /\ (l = [] -> S i = length b -> out !! S i = Some [])
       /\ (l = [] -> (S i < length b)%nat ->
           out !! S i = Some (TrimRight rest cutset)))
  /\ (TrimRight rest cutset = []
      <-> Forall (fun c => mem c cutset = true) rest).
Proof.
  cbv zeta. cbn [fix_ apply_rule]. unfold append, prepend.
  destruct (indent_spec rest b) as (Hlen & Hlines).
  split; [| split; [| split; [| split]]].
  - rewrite length_app. cbn [length]. rewrite Hlen. lia.
  - reflexivity.
  - now rewrite last_snoc.
  - intros i l Hl.
    assert (((first :: indent rest b) ++ [last_]) !! S i = indent rest b !! i) as ->.
    { rewrite lookup_app_l; [reflexivity |].
      cbn [length]. rewrite Hlen. apply lookup_lt_Some in Hl. lia. }
    exact (Hlines i l Hl).
  - apply TrimRight_nil_iff.
Qed.

(** A continuation marker made of a vertical tab is whitespace that
    [TrimRight] does not strip: the blank line in the middle keeps it. *)
Example IComment_vertical_tab :
  fix_ (Some (IComment (str "/*") [VT] (str "*/"))) [str "a"; []; str "b"]
  = [str "/*"; VT :: str "a"; [VT]; VT :: str "b"; str "*/"].
Proof. reflexivity. Qed.

(** ** The registry (registry.go) *)

Lemma index_lookup {A} (l : list A) (i : Z) x :
  index l i = Some x -> 0 <= i < Z.of_nat (length l) /\ l !! Z.to_nat i = Some x.
Proof.
  unfold index. destruct (Z.leb_spec 0 i); cbn [andb]; [| discriminate].
  destruct (Z.ltb_spec i (Z.of_nat (length l))); [| discriminate].
  intros Hx. split; [lia | exact Hx].
Qed.

Lemma lookup_loop_sound fuel known slug i j :
  0 <= i -> j < Z.of_nat (length known) ->
  registry.lookup_loop fuel known slug i j = OutOfFuel
  \/ exists r ok,
       registry.lookup_loop fuel known slug i j = Done (r, ok)
       /\ (ok = true -> exists lic, index known r = Some lic /\ Slug lic = slug).
Proof.
  revert i j. induction fuel as [| fuel IH]; intros i j Hi Hj; [now left |].
  rewrite lookup_loop_step. destruct (Z.leb_spec i j) as [Hij | Hij].
  - pose proof (midpoint_bounds i j Hi Hij) as Hm.
    destruct (index_Some known ((i + j) ÷ 2)) as (cur & Hcur & _); [lia |].
    rewrite Hcur. destruct (string_eq slug (Slug cur)) eqn:Eeq.
    + right. exists ((i + j) ÷ 2), true. split; [reflexivity |]. intros _.
      exists cur. apply string_eq_true in Eeq. split; [exact Hcur | now symmetry].
    + destruct (string_lt slug (Slug cur)); apply IH; lia.
  - right. exists i, false. split; [reflexivity | discriminate].
Qed.

(** X12: [Lookup] never panics and never hands out a license with
    another slug: it is still running, or it returns nil, or it returns
    a registered license whose slug is the one asked for.  This holds for
    every registry, sorted or not. *)
Theorem Lookup_sound fuel g slug :
  licenses.Lookup fuel g slug = OutOfFuel
  \/ licenses.Lookup fuel g slug = Done None
  \/ exists lic, licenses.Lookup fuel g slug = Done (Some lic)
                 /\ Slug lic = slug /\ lic ∈ registry.known g.
Proof.
  unfold licenses.Lookup, registry.fetch, registry.lookup.
  destruct (lookup_loop_sound fuel (registry.known g) slug 0
              (Z.of_nat (length (registry.known g)) - 1))
    as [-> | (r & ok & -> & Hok)]; [lia | lia | now left |].
  cbn [bind]. destruct ok; [| right; now left].
  destruct (Hok eq_refl) as (lic & Hlic & Hslug). rewrite Hlic.
  right. right. exists lic. split; [reflexivity |]. split; [exact Hslug |].
  apply index_lookup in Hlic as [_ Hlic]. eapply list_elem_of_lookup_2; eauto.
Qed.

Lemma sorted_lookup (known : list License) a b x y :
  StronglySorted slug_lt known ->
  known !! a = Some x -> known !! b = Some y -> (a < b)%nat -> slug_lt x y.
Proof.
  intros Hs. revert a b. induction Hs as [| k ks Hks IH Hk]; intros a b Ha Hb Hab;
    [discriminate |].
  destruct b as [| b]; [lia |]. destruct a as [| a].
  - injection Ha as ->. rewrite Forall_forall in Hk. apply Hk.
    eapply list_elem_of_lookup_2. exact Hb.
  - apply (IH a b); [exact Ha | exact Hb | lia].
Qed.

Lemma midpoint_double i j :
  0 <= i -> i <= j -> 2 * ((i + j) ÷ 2) <= i + j < 2 * ((i + j) ÷ 2) + 2.
Proof.
  intros Hi Hij. rewrite Z.quot_div_nonneg by lia.
  pose proof (Z.div_mod (i + j) 2 ltac:(lia)).
  pose proof (Z.mod_pos_bound (i + j) 2 ltac:(lia)). lia.
Qed.

Lemma string_lt_neq' a b : string_lt a b = true -> string_eq a b = false.
Proof.
  intros Hab. apply string_eq_false. intros ->.
  now rewrite string_lt_irrefl in Hab.
Qed.

(** In a sorted list the search closes in on the entry that holds the
    slug, one turn of the loop for each halving of the bounds. *)
Lemma lookup_loop_finds fuel known lic t i j :
  StronglySorted slug_lt known ->
  index known t = Some lic ->
  0 <= i <= t -> t <= j < Z.of_nat (length known) ->
  j - i < Z.of_nat fuel ->
  registry.lookup_loop fuel known (Slug lic) i j = Done (t, true).
Proof.
  intros Hs Ht. revert i j. induction fuel as [| fuel IH]; intros i j Hi Hj Hfuel; [lia |].
  rewrite lookup_loop_step. destruct (Z.leb_spec i j) as [Hij | Hij]; [| lia].
  pose proof (midpoint_bounds i j (proj1 Hi) Hij) as Hm.
  pose proof (midpoint_double i j (proj1 Hi) Hij) as Hd.
  destruct (index_Some known ((i + j) ÷ 2)) as (cur & Hcur & _); [lia |].
  rewrite Hcur.
  apply index_lookup in Ht as Ht'. destruct Ht' as [Htr Htl].
  apply index_lookup in Hcur as Hc'. destruct Hc' as [Hmr Hml].
  destruct (Z.lt_trichotomy ((i + j) ÷ 2) t) as [Hlt | [Heq | Hgt]].
  - assert (slug_lt cur lic) as Hcl
        by (apply (sorted_lookup known _ _ _ _ Hs Hml Htl); lia).
    unfold slug_lt in Hcl.
    rewrite (string_lt_neq _ _ Hcl), (string_lt_asym _ _ Hcl).
    apply IH; lia.
  - rewrite Heq in Hcur. rewrite Hcur in Ht. injection Ht as ->.
    assert (string_eq (Slug lic) (Slug lic) = true) as -> by now apply string_eq_true.
    now rewrite Heq.
  - assert (slug_lt lic cur) as Hlc
        by (apply (sorted_lookup known _ _ _ _ Hs Htl Hml); lia).
    unfold slug_lt in Hlc.
    rewrite (string_lt_neq' _ _ Hlc), Hlc.
    apply IH; lia.
Qed.

(** X13: in a registry sorted by slug, [Lookup] of the slug of a
    registered license returns that license, with one more turn of the
    loop than there are entries. *)
Theorem Lookup_registered g lic :
  StronglySorted slug_lt (registry.known g) ->
  lic ∈ registry.known g ->
  licenses.Lookup (S (length (registry.known g))) g (Slug lic) = Done (Some lic).
Proof.
  intros Hs Hin. apply list_elem_of_lookup in Hin as [n Hn].
  pose proof (lookup_lt_Some _ _ _ Hn) as Hlen.
  assert (index (registry.known g) (Z.of_nat n) = Some lic) as Ht.
  { unfold index. destruct (Z.leb_spec 0 (Z.of_nat n)); [| lia].
    destruct (Z.ltb_spec (Z.of_nat n) (Z.of_nat (length (registry.known g)))); [| lia].
    cbn [andb]. now rewrite Nat2Z.id. }
  unfold licenses.Lookup, registry.fetch, registry.lookup.
  rewrite (lookup_loop_finds _ _ lic (Z.of_nat n)); try assumption; try lia.
  cbn [bind]. now rewrite Ht.
Qed.

Lemma sorted_registered : StronglySorted slug_lt registered.
Proof. repeat constructor; vm_compute; reflexivity. Qed.

Lemma Lookup_registered_witness :
  let g := registry.mk registered in
  StronglySorted slug_lt (registry.known g) /\
  freebsd ∈ registry.known g /\
  licenses.Lookup (S (length (registry.known g))) g (Slug freebsd) = Done (Some freebsd).
Proof.
  cbv zeta.
  assert (freebsd ∈ registry.known (registry.mk registered)) as Hin.
  { cbn [registry.known]. unfold registered. apply elem_of_cons. right.
    apply elem_of_cons. left. reflexivity. }
  split; [exact sorted_registered |]. split; [exact Hin |].
  apply Lookup_registered; [exact sorted_registered | exact Hin].
Defined.

(** X14: [Lookup] of a slug that comes after every registered slug
    returns nil; in particular every lookup in the empty registry does. *)
Theorem Lookup_above g slug :
  Forall (fun cur => string_lt (Slug cur) slug = true) (registry.known g) ->
  licenses.Lookup (S (length (registry.known g))) g slug = Done None.
Proof.
  intros Hall. unfold licenses.Lookup, registry.fetch, registry.lookup.
  rewrite lookup_loop_above; [reflexivity | exact Hall | lia | lia].
Qed.

Lemma Lookup_above_witness :
  let g := registry.mk registered in
  Forall (fun cur => string_lt (Slug cur) (str "zlib") = true) (registry.known g) /\
  licenses.Lookup (S (length (registry.known g))) g (str "zlib") = Done None.
Proof.
  cbv zeta.
  assert (Forall (fun cur => string_lt (Slug cur) (str "zlib") = true)
                 (registry.known (registry.mk registered))) as H
      by (repeat constructor).
  split; [exact H | now apply Lookup_above].
Defined.

(** X15: in a registry sorted by slug, [Register] of a license whose
    (non-empty) slug is already registered panics with the duplicate
    message and leaves the registry as it is. *)
Theorem Register_duplicate g lic old :
  StronglySorted slug_lt (registry.known g) ->
  old ∈ registry.known g -> Slug old = Slug lic -> Slug lic <> [] ->
  licenses.Register (S (length (registry.known g))) g lic
  = (g, Panicked "duplicate registrations for slug").
Proof.
  intros Hs Hin Hslug Hne. apply list_elem_of_lookup in Hin as [n Hn].
  pose proof (lookup_lt_Some _ _ _ Hn) as Hlen.
  assert (index (registry.known g) (Z.of_nat n) = Some old) as Ht.
  { unfold index. destruct (Z.leb_spec 0 (Z.of_nat n)); [| lia].
    destruct (Z.ltb_spec (Z.of_nat n) (Z.of_nat (length (registry.known g)))); [| lia].
    cbn [andb]. now rewrite Nat2Z.id. }
  unfold licenses.Register, registry.insert, registry.lookup.
  destruct (Slug lic) as [| c sl] eqn:E; [congruence |]. cbn [is_empty].
  rewrite <- Hslug.
  rewrite (lookup_loop_finds _ _ old (Z.of_nat n)); try assumption; try lia.
  reflexivity.
Qed.

Lemma Register_duplicate_witness :
  let g := registry.mk registered in
  let lic := mkLicense (str "Another MIT") (str "mit-expat") [] (str "text") [] in
  StronglySorted slug_lt (registry.known g) /\
  mit_expat ∈ registry.known g /\ Slug mit_expat = Slug lic /\ Slug lic <> [] /\
  licenses.Register (S (length (registry.known g))) g lic
  = (g, Panicked "duplicate registrations for slug").
Proof.
  cbv zeta.
  assert (mit_expat ∈ registry.known (registry.mk registered)) as Hin.
  { cbn [registry.known]. unfold registered. apply elem_of_cons. right.
    apply elem_of_cons. right. apply elem_of_cons. left. reflexivity. }
  split; [exact sorted_registered |]. split; [exact Hin |].
  split; [reflexivity |]. split; [discriminate |].
  apply (Register_duplicate _ _ mit_expat);
    [exact sorted_registered | exact Hin | reflexivity | discriminate].
Defined.

(** X16: a call of [Register] either returns, and then the license has
    been put at the end of the list with nothing else changed, or it
    does not return, and then the registry is as it was.  No call
    removes, overwrites or reorders an entry. *)
Theorem Register_only_appends fuel g lic :
  let r := licenses.Register fuel g lic in
  (snd r = Done tt /\ registry.known (fst r) = registry.known g ++ [lic]
   /\ Slug lic <> [])
  \/ (fst r = g /\ (snd r = OutOfFuel \/ exists msg, snd r = Panicked msg)).
Proof.
  cbv zeta. destruct (licenses.Register fuel g lic) as [g' o] eqn:E.
  cbn [fst snd]. destruct o as [[] | msg |].
  - left. split; [reflexivity |]. split; [now apply (Register_Done_appends fuel) |].
    intros Hs. unfold licenses.Register in E. rewrite Hs in E. discriminate E.
  - right. split; [| right; now exists msg].
    revert E. unfold licenses.Register, registry.insert.
    destruct (is_empty (Slug lic)); [now intros [= <- _] |].
    destruct (registry.lookup fuel g (Slug lic)) as [[i ok] | m |]; cbn [bind].
    + destruct ok; [now intros [= <- _] |].
      destruct (_ && _); [discriminate | now intros [= <- _]].
    + now intros [= <- _].
    + discriminate.
  - right. split; [| now left].
    revert E. unfold licenses.Register, registry.insert.
    destruct (is_empty (Slug lic)); [discriminate |].
    destruct (registry.lookup fuel g (Slug lic)) as [[i ok] | m |]; cbn [bind].
    + destruct ok; [discriminate |]. destruct (_ && _); discriminate.
    + discriminate.
    + now intros [= <-].
Qed.

Lemma visit_collect (known : list License) (acc : list License) :
  fold_left (fun a lic => a ++ [lic]) known acc = acc ++ known.
Proof.
  revert acc. induction known as [| k ks IH]; intros acc; cbn [fold_left].
  - now rewrite app_nil_r.
  - rewrite IH, <- app_assoc. reflexivity.
Qed.

(** X17: licenses with non-empty slugs that are registered in strictly
    increasing slug order are all registered, [List] then visits them
    in that order, and [Lookup] of each of their slugs returns the
    license that was registered. *)
Theorem Register_Lookup_round_trip lics :
  StronglySorted slug_lt lics ->
  Forall (fun l => Slug l <> []) lics ->
  let fuel := S (length lics) in
  exists g,
    licenses.RegisterAll fuel licenses.global0 lics = (g, Done tt)
    /\ licenses.List g (fun lic acc => acc ++ [lic]) [] = lics
    /\ forall lic, lic ∈ lics -> licenses.Lookup fuel g (Slug lic) = Done (Some lic).
Proof.
  intros Hs Hne. cbv zeta. exists (registry.mk lics).
  split; [| split].
  - exact (RegisterAll_increasing lics [] Hs Hne).
  - unfold licenses.List, registry.visit. cbn [registry.known].
    apply (visit_collect lics []).
  - intros lic Hin. apply list_elem_of_lookup in Hin as [n Hn].
    pose proof (lookup_lt_Some _ _ _ Hn) as Hlen.
    assert (index lics (Z.of_nat n) = Some lic) as Ht.
    { unfold index. destruct (Z.leb_spec 0 (Z.of_nat n)); [| lia].
      destruct (Z.ltb_spec (Z.of_nat n) (Z.of_nat (length lics))); [| lia].
      cbn [andb]. now rewrite Nat2Z.id. }
    unfold licenses.Lookup, registry.fetch, registry.lookup. cbn [registry.known].
    rewrite (lookup_loop_finds _ _ lic (Z.of_nat n)); try assumption; try lia.
    cbn [bind]. now rewrite Ht.
Qed.

Lemma Register_Lookup_round_trip_witness :
  StronglySorted slug_lt registered /\
  Forall (fun l => Slug l <> []) registered /\
  exists g,
    licenses.RegisterAll (S (length registered)) licenses.global0 registered
    = (g, Done tt)
    /\ licenses.List g (fun lic acc => acc ++ [lic]) [] = registered
    /\ forall lic, lic ∈ registered ->
         licenses.Lookup (S (length registered)) g (Slug lic) = Done (Some lic).
Proof.
  assert (Forall (fun l => Slug l <> []) registered) as Hne
      by (repeat constructor; discriminate).
  split; [exact sorted_registered |]. split; [exact Hne |].
  exact (Register_Lookup_round_trip registered sorted_registered Hne).
Defined.

(** X18: in whatever order licenses are passed to [Register], when all
    the calls return the registry lists the licenses in the order of the
    calls, that order is strictly increasing by slug, and [List] visits
    them in it. *)
Theorem RegisterAll_returns_sorted fuel lics g :
  licenses.RegisterAll fuel licenses.global0 lics = (g, Done tt) ->
  registry.known g = lics
  /\ StronglySorted slug_lt lics
  /\ licenses.List g (fun lic acc => acc ++ [lic]) [] = lics.
Proof.
  intros H. apply RegisterAll_Done_sorted in H as [Hk Hs]; [| constructor].
  cbn [licenses.global0 registry.known app] in Hk.
  split; [exact Hk |]. split; [now rewrite <- Hk |].
  unfold licenses.List, registry.visit. rewrite Hk.
  apply (visit_collect lics []).
Qed.

Lemma RegisterAll_returns_sorted_witness :
  licenses.RegisterAll 3 licenses.global0 registered = (registry.mk registered, Done tt) /\
  (registry.known (registry.mk registered) = registered
   /\ StronglySorted slug_lt registered
   /\ licenses.List (registry.mk registered) (fun lic acc => acc ++ [lic]) [] = registered).
Proof.
  split; [vm_compute; reflexivity |].
  apply (RegisterAll_returns_sorted 3). vm_compute. reflexivity.
Defined.

(** ** Annotating a file (license.go) *)

Lemma CreateTemp_free abs rnds w :
  (exists rnd, rnd ∈ rnds /\ fs w !! tempName abs rnd = None) ->
  exists w1 tmp, CreateTemp abs rnds w = (w1, Ok tmp).
Proof.
  intros (rnd & Hin & Hfree). induction rnds as [| r0 rest IH];
    [now apply elem_of_nil in Hin |].
  cbn [CreateTemp]. destruct (fs w !! tempName abs r0) eqn:E; [| eauto].
  apply IH. apply elem_of_cons in Hin as [-> | Hin]; [congruence | exact Hin].
Qed.

(** X19: when nothing fails, the template parses and [os.CreateTemp]
    finds a free name, [EditFile] returns nil and the only change to the
    file system is that the file now holds the rendered header followed
    by all of its old content, wherever the read offset of the handle
    was; no temporary file is left. *)
Theorem EditFile_prepends e lic f c ind w header :
  PerFile lic <> [] ->
  abs_fails e = false -> seek_fails e = false ->
  write_fails e = None -> copy_fails e = None ->
  sync_fails e = false -> close_fails e = false -> rename_fails e = false ->
  (exists rnd, rnd ∈ temp_names e /\ fs w !! tempName (fname f) rnd = None) ->
  newTemplate c (block_String (append [[LF]] (fix_ ind (cleanup (PerFile lic)))))
  = Ok header ->
  let r := EditFile e (Some lic) f c ind w in
  snd r = Ok tt
  /\ fs (fst r) = <[fname f := header ++ content w (fname f)]> (fs w).
Proof.
  intros Hper Habs Hseek Hwr Hcp Hsync Hclose Hren Hfree Htpl. cbv zeta.
  unfold EditFile.
  assert (is_empty (PerFile lic) = false) as ->
      by (destruct (PerFile lic); [congruence | reflexivity]).
  unfold Abs, Seek. rewrite Habs, Hseek, Htpl.
  set (w0 := emit (ESeek (fname f)) w).
  destruct (CreateTemp_free (fname f) (temp_names e) w0 Hfree) as (w1 & tmp & Etmp).
  rewrite Etmp.
  destruct (CreateTemp_name _ _ _ _ _ Etmp) as [rnd Hname].
  apply CreateTemp_Ok in Etmp as [Hfresh ->]. subst w0.
  assert (tmp <> fname f) as Hne by (rewrite Hname; apply tempName_neq).
  unfold emit in *. cbn [fs log fname offset] in *.
  unfold Write, Sync, Close, Rename. rewrite Hwr, Hcp, Hsync, Hclose, Hren.
  unfold emit, content. cbn [fs log fst snd default].
  rewrite !lookup_insert_eq. cbn [default app].
  rewrite ?insert_insert_eq, ?lookup_insert_eq.
  rewrite ?(lookup_insert_ne _ tmp (fname f)) by exact Hne.
  cbn [fs log fst snd].
  unfold Remove. cbn [fs log].
  rewrite ?(lookup_insert_ne _ (fname f) tmp) by congruence.
  rewrite ?lookup_delete_eq.
  destruct (remove_fails e); cbn [fst snd fs];
    (split; [reflexivity |];
     rewrite delete_insert_eq, delete_id by exact Hfresh;
     unfold id; cbn [app]; now rewrite drop_0).
Qed.

Lemma EditFile_prepends_witness :
  let e := mkEnv false false [str "1"; str "2"] None None false false false false in
  let f := mkFile (str "/src/a.go") 3 in
  let c := mkConfig (str "Ann") [] (fun _ => str "2018") in
  let w := mkWorld {[ str "/src/a.go" := str "package a";
                      str "/src/a.go~1" := str "left over" ]} [] in
  let header := str "// Copyright (C) 2018 Ann. All Rights Reserved." ++ [LF; LF] in
  let r := EditFile e (Some mit_expat) f c (Some slash_rule) w in
  (exists rnd, rnd ∈ temp_names e /\ fs w !! tempName (fname f) rnd = None) /\
  newTemplate c (block_String (append [[LF]]
                   (fix_ (Some slash_rule) (cleanup (PerFile mit_expat)))))
  = Ok header /\
  (snd r = Ok tt
   /\ fs (fst r) = <[fname f := header ++ content w (fname f)]> (fs w)).
Proof.
  cbv zeta.
  assert (exists rnd,
            rnd ∈ [str "1"; str "2"]
            /\ ({[ str "/src/a.go" := str "package a";
                   str "/src/a.go~1" := str "left over" ]} : gmap gostring gostring)
                 !! tempName (str "/src/a.go") rnd = None) as Hfree.
  { exists (str "2"). split; [apply elem_of_cons; right; apply elem_of_cons; now left |].
    vm_compute. reflexivity. }
  split; [exact Hfree |]. split; [vm_compute; reflexivity |].
  apply EditFile_prepends;
    first [ exact Hfree | reflexivity | vm_compute; discriminate ].
Defined.

(** X20: whatever makes [EditFile] return an error (the path, the seek,
    the template, the temporary file, a write, the sync, the close or
    the rename), nothing was renamed and every file that was there
    holds its old bytes.  When [os.Remove] works, the file system is the
    one the call started from and every temporary file the call created
    is gone.  The only name whose content can differ afterwards is the
    one temporary file that the call created under a free name, and it
    differs only when [os.Remove] failed. *)
Theorem EditFile_error_unchanged e lic f c ind w msg :
  snd (EditFile e lic f c ind w) = Err msg ->
  let r := EditFile e lic f c ind w in
  (forall ev, ev ∈ new_events w (fst r) -> is_rename ev = false)
  /\ (forall p data, fs w !! p = Some data -> fs (fst r) !! p = Some data)
  /\ (remove_fails e = false ->
      fs (fst r) = fs w
      /\ forall p, p ∈ created (new_events w (fst r)) -> fs (fst r) !! p = None)
  /\ (forall p, fs (fst r) !! p <> fs w !! p ->
                remove_fails e = true
                /\ created (new_events w (fst r)) = [p]
                /\ fs w !! p = None).
Proof.
  intros Hmsg. cbv zeta.
  destruct (EditFile_error_world _ _ _ _ _ _ _ Hmsg)
    as [Hren [[Hfs Hcr] | (tmp & Hfresh & Hne & Hcr & Hrm)]].
  - rewrite Hfs, Hcr. repeat split; eauto; try congruence.
    intros p Hp. now apply elem_of_nil in Hp.
  - rewrite Hcr.
    destruct Hrm as [[Erm Hfs] | (Erm & data & Hfs)]; rewrite Hfs, Erm.
    + repeat split; eauto; try congruence.
      intros p Hp. apply list_elem_of_singleton in Hp. now subst p.
    + split; [exact Hren |].
      split.
      { intros p d Hp. rewrite lookup_insert_ne; [exact Hp | congruence]. }
      split; [discriminate |].
      intros p Hp. destruct (decide (tmp = p)) as [<- | Hp'].
      * repeat split; assumption.
      * now rewrite lookup_insert_ne in Hp.
Qed.

Lemma EditFile_error_unchanged_witness :
  let e := mkEnv false false [str "1"] None None false false true false in
  let f := mkFile (str "/src/a.go") 0 in
  let c := mkConfig (str "Ann") [] (fun _ => str "2018") in
  let w := mkWorld {[ str "/src/a.go" := str "package a" ]} [] in
  let r := EditFile e (Some mit_expat) f c (Some slash_rule) w in
  snd r = Err "rename" /\
  ((forall ev, ev ∈ new_events w (fst r) -> is_rename ev = false)
   /\ (forall p data, fs w !! p = Some data -> fs (fst r) !! p = Some data)
   /\ (remove_fails e = false ->
       fs (fst r) = fs w
       /\ forall p, p ∈ created (new_events w (fst r)) -> fs (fst r) !! p = None)
   /\ (forall p, fs (fst r) !! p <> fs w !! p ->
                 remove_fails e = true
                 /\ created (new_events w (fst r)) = [p]
                 /\ fs w !! p = None)).
Proof.
  cbv zeta. split; [vm_compute; reflexivity |].
  apply (EditFile_error_unchanged _ _ _ _ _ _ "rename"). vm_compute. reflexivity.
Defined.

(** ** Choosing the rule (lice.go) *)

Lemma ext_scan_slash (a x acc : gostring) :
  "/"%char ∉ a -> ext_scan (a ++ "/"%char :: x) acc = ext_scan a acc.
Proof.
  revert acc. induction a as [| ch a IH]; intros acc Hno; [reflexivity |].
  cbn [app ext_scan].
  destruct (Ascii.eqb_spec ch "/"%char) as [-> | Hch].
  - exfalso. apply Hno. left.
  - destruct (Ascii.eqb ch "."%char); [reflexivity |].
    apply IH. intros Hin. apply Hno. now right.
Qed.

Lemma Ext_base dir name :
  "/"%char ∉ name -> Ext (dir ++ "/"%char :: name) = Ext name.
Proof.
  intros Hno. unfold Ext. rewrite rev_app_distr. cbn [rev].
  rewrite <- app_assoc. cbn [app]. apply ext_scan_slash.
  intros Hin. apply Hno. apply list_elem_of_In. apply in_rev.
  now apply list_elem_of_In.
Qed.

(** X21: in guess mode the directory of a path plays no part: the rule
    chosen for a path is the rule chosen for its last element, so a dot
    in a directory name is never taken for an extension. *)
Theorem chooseIndent_guess_last_element dir name :
  "/"%char ∉ name ->
  chooseIndent (str "guess") (dir ++ "/"%char :: name)
  = chooseIndent (str "guess") name.
Proof.
  intros Hno. unfold chooseIndent. now rewrite Ext_base.
Qed.

Lemma chooseIndent_guess_last_element_witness :
  ("/"%char ∉ str "Makefile") /\
  chooseIndent (str "guess") (str "pkg/v1.2" ++ "/"%char :: str "Makefile")
  = chooseIndent (str "guess") (str "Makefile").
Proof.
  assert ("/"%char ∉ str "Makefile") as H.
  { intros Hin. vm_compute in Hin.
    repeat (apply elem_of_cons in Hin as [Hin | Hin]; [discriminate Hin |]).
    now apply elem_of_nil in Hin. }
  split; [exact H | now apply chooseIndent_guess_last_element].
Defined.

(** X22: a style named by the user is used whatever the file is called,
    and a style that is neither in the table nor "guess" (such as
    "none") gives no rule. *)
Theorem chooseIndent_explicit :
  (forall path, chooseIndent (str "hash") path = Some hash_rule)
  /\ (forall path, chooseIndent (str "slash") path = Some slash_rule)
  /\ (forall path, chooseIndent (str "star") path = Some star_rule)
  /\ (forall path, chooseIndent (str "sstar") path
                   = Some (IComment (str "/*") (str " * ") (str " */")))
  /\ (forall path, chooseIndent (str "xml") path = Some xml_rule)
  /\ (forall path, chooseIndent (str "none") path = None)
  /\ (forall style path,
        indent_table !! style = None -> style <> str "guess" ->
        chooseIndent style path = None).
Proof.
  assert (forall style r path,
            indent_table !! style = Some r -> chooseIndent style path = Some r) as Hin.
  { intros style r path H. unfold chooseIndent. now rewrite H. }
  assert (forall style path,
            indent_table !! style = None -> style <> str "guess" ->
            chooseIndent style path = None) as Hout.
  { intros style path H Hne. unfold chooseIndent. rewrite H.
    apply string_eq_false in Hne. now rewrite Hne. }
  split; [| split; [| split; [| split; [| split; [| split]]]]]; intros;
    try (apply Hin; vm_compute; reflexivity).
  - apply Hout; [vm_compute; reflexivity | discriminate].
  - now apply Hout.
Qed.

(** ** Rendering a text without actions (license.go) *)

Lemma lex_text acc s :
  LBRACE ∉ s -> lex false acc s = Some [(false, rev acc ++ s)].
Proof.
  revert acc. induction s as [| ch r IH]; intros acc Hno.
  - cbn [lex]. now rewrite app_nil_r.
  - assert (Ascii.eqb ch LBRACE = false) as Hch.
    { apply Ascii.eqb_neq. intros ->. apply Hno. left. }
    assert (LBRACE ∉ r) as Hr by (intros Hin; apply Hno; now right).
    specialize (IH (ch :: acc) Hr).
    cbn [rev] in IH. rewrite <- app_assoc in IH. cbn [app] in IH.
    destruct r as [| d r'].
    + reflexivity.
    + change (lex false acc (ch :: d :: r'))
        with (if Ascii.eqb ch LBRACE && Ascii.eqb d LBRACE
              then option_map (cons (false, rev acc)) (lex true [] r')
              else lex false (ch :: acc) (d :: r')).
      rewrite Hch. exact IH.
Qed.

Lemma newTemplate_text c s : LBRACE ∉ s -> newTemplate c s = Ok s.
Proof.
  intros Hno. unfold newTemplate, Parse. rewrite (lex_text [] s Hno).
  cbn. now rewrite app_nil_r.
Qed.

Lemma TrimRight_chars (P : ascii -> Prop) l cs :
  Forall P l -> Forall P (TrimRight l cs).
Proof.
  induction 1 as [| ch r Hc _ IH]; [constructor |].
  cbn [TrimRight]. destruct (TrimRight r cs) as [| d r'].
  - destruct (mem ch cs); repeat constructor; assumption.
  - now constructor.
Qed.

Lemma ReplaceTab_chars (P : ascii -> Prop) l new :
  Forall P new -> Forall P l -> Forall P (ReplaceTab l new).
Proof.
  intros Hnew. induction 1 as [| ch r Hc _ IH]; [constructor |].
  cbn [ReplaceTab]. destruct (Ascii.eqb ch TAB).
  - apply Forall_app. now split.
  - now constructor.
Qed.

Lemma Repeat_chars (P : ascii -> Prop) ch n : P ch -> Forall P (Repeat ch n).
Proof.
  intros Hc. unfold Repeat. induction (Z.to_nat n) as [| k IH]; [constructor |].
  cbn [replicate]. now constructor.
Qed.

Lemma Forall_suffix {A} (P : A -> Prop) (l1 l2 : list A) :
  l1 `suffix_of` l2 -> Forall P l2 -> Forall P l1.
Proof. intros [k ->] H. now apply Forall_app in H as [_ H]. Qed.

Lemma Forall_prefix {A} (P : A -> Prop) (l1 l2 : list A) :
  l1 `prefix_of` l2 -> Forall P l2 -> Forall P l1.
Proof. intros [k ->] H. now apply Forall_app in H as [H _]. Qed.

Lemma map_chars (P : ascii -> Prop) (g : gostring -> gostring) (t : block) :
  (forall l, Forall P l -> Forall P (g l)) ->
  Forall (Forall P) t -> Forall (Forall P) (map g t).
Proof.
  intros Hg. induction 1 as [| l r Hl _ IH]; [constructor |].
  cbn [map]. constructor; [now apply Hg | exact IH].
Qed.

(** The characters of a normal form are characters of the text, or
    spaces put in place of tabs. *)
Lemma cleanup_chars (P : ascii -> Prop) T :
  P SP -> Forall P T -> Forall (Forall P) (cleanup T).
Proof.
  intros Hsp HT. unfold cleanup.
  assert (Forall (Forall P) (untabify 0 (trimSpace (newBlock T)))) as Hu.
  { unfold untabify. apply map_chars.
    - intros l. apply ReplaceTab_chars. now apply Repeat_chars.
    - unfold trimSpace.
      eapply Forall_prefix; [apply dropBlankTail_prefix |].
      eapply Forall_suffix; [apply dropBlankHead_suffix |].
      apply map_chars; [intros l; apply TrimRight_chars |].
      now apply Split_chars. }
  unfold leftJust. destruct (minSpace None _) as [m |]; [| exact Hu].
  apply map_chars; [| exact Hu].
  intros l. apply Forall_suffix, TrimPrefix_suffix.
Qed.

Lemma Join_chars (P : ascii -> Prop) (t : block) :
  P LF -> Forall (Forall P) t -> Forall P (Join t).
Proof.
  intros Hlf. induction 1 as [| l r Hl _ IH]; [constructor |].
  destruct r as [| l2 r']; [exact Hl |].
  rewrite Join_cons by discriminate.
  apply Forall_app. split; [exact Hl | now constructor].
Qed.

Lemma Join_snoc (t : block) : t <> [] -> Join (t ++ [[]]) = Join t ++ [LF].
Proof.
  induction t as [| l r IH]; [congruence |]. intros _.
  destruct r as [| l2 r']; [reflexivity |].
  assert (l2 :: r' <> []) as Hne by discriminate.
  specialize (IH Hne).
  change ((l :: l2 :: r') ++ [[]]) with (l :: ((l2 :: r') ++ [[]])).
  rewrite Join_cons by (cbn [app]; discriminate).
  rewrite IH, (Join_cons l (l2 :: r') Hne). now rewrite <- app_assoc.
Qed.

(** X23: a license text without a left brace holds no template action,
    and is written as its normal form with a line feed after its last
    line, whatever the configuration; a text whose normal form is empty
    is written as nothing at all, without the final line feed. *)
Theorem WriteText_plain_text lic c :
  LBRACE ∉ Text lic ->
  WriteText (Some lic) c
  = Ok (match cleanup (Text lic) with
        | [] => []
        | t => Join t ++ [LF]
        end).
Proof.
  intros Hno. unfold WriteText.
  assert (LBRACE ∉ block_String (append [[]] (cleanup (Text lic)))) as Hout.
  { assert (Forall (fun ch => ch <> LBRACE)
                   (block_String (append [[]] (cleanup (Text lic))))) as H.
    { unfold block_String, append. apply Join_chars; [discriminate |].
      apply Forall_app. split; [| repeat constructor].
      apply cleanup_chars; [discriminate |].
      apply Forall_forall. intros ch Hin ->. contradiction. }
    rewrite Forall_forall in H. intros Hin. now apply (H _ Hin). }
  cbv zeta. rewrite (newTemplate_text c _ Hout). f_equal.
  unfold block_String, append.
  destruct (cleanup (Text lic)) as [| l r] eqn:E; [reflexivity |].
  now apply Join_snoc.
Qed.

Lemma WriteText_plain_text_witness :
  let lic := mkLicense (str "x") (str "X") []
                       (str "  Free for all." ++ [LF; TAB; LF]) [] in
  let c := mkConfig (str "Ann") [] (fun _ => str "2018") in
  (LBRACE ∉ Text lic) /\
  WriteText (Some lic) c = Ok (str "Free for all." ++ [LF]).
Proof.
  cbv zeta.
  assert (LBRACE ∉ Text (mkLicense (str "x") (str "X") []
                           (str "  Free for all." ++ [LF; TAB; LF]) [])) as H.
  { intros Hin. vm_compute in Hin.
    repeat (apply elem_of_cons in Hin as [Hin | Hin]; [discriminate Hin |]).
    now apply elem_of_nil in Hin. }
  split; [exact H |].
  exact (eq_trans (WriteText_plain_text _ _ H) eq_refl).
Defined.
